(** * png-embed: the chunk codec of [embed.go], embedded in Rocq

    Go data is modelled as follows.
    - [[]byte] is [list byte]; a nil slice returned beside an error is [None].
    - [string] is Rocq's [string]; [[]byte(s)] is [bytes s] and [string(bs)] is
      [str bs].
    - [uint32] is a [Z] in [0, 2^32) with the wrap-around written out
      ([uint32]); [int] is the 64-bit [int] of the usual platforms.
    - a Go [(value, error)] result is a pair of two options, [None] for nil.
    - a run-time panic (index or slice bound out of range) is [Panic]. *)

From Stdlib Require Import ZArith Lia.
From Stdlib Require Import Strings.Byte Floats.SpecFloat.
From stdpp Require Import base option list strings gmap.

Local Open Scope string_scope.
Local Open Scope list_scope.
Local Open Scope Z_scope.

(** ** Outcomes, errors *)

Inductive panic : Type :=
| IndexOutOfRange
| SliceBoundsOutOfRange.

Inductive outcome (A : Type) : Type :=
| Return (a : A)
| Panic (p : panic).
Arguments Return {A} a.
Arguments Panic {A} p.

Global Instance outcome_ret : MRet outcome := @Return.
Global Instance outcome_bind : MBind outcome :=
  λ A B f m, match m with Return a => f a | Panic p => Panic p end.

(** The error values that flow through [embed.go]. *)
Inductive error : Type :=
| ErrSubstringLarger                     (* errors.New("substring larger than parent") *)
| ErrByteMismatch                        (* errors.New("byte mismatch with sub") *)
| ErrInvalidChunkType (ct : string)      (* fmt.Errorf("invalid chunk type (%s)", ct) *)
| EOF                                    (* io.EOF *)
| ErrWrap (msg : string) (e : error)     (* fmt.Errorf("msg: %w", err) *)
| ErrReader (msg : string)               (* a failure of the chunk reader *)
| ErrMarshal (msg : string).             (* a failure of json.Marshal *)

Global Instance error_eq_dec : EqDecision error.
Proof. solve_decision. Defined.

Global Instance byte_eq_dec : EqDecision byte := Byte.byte_eq_dec.

(** A Go result [(v, err)]. *)
Definition result (A : Type) : Type := (option A * option error)%type.

(** A nil slice behaves as the empty one under [append] and [len]. *)
Definition bytes_of (o : option (list byte)) : list byte := default [] o.

(** The conversions [[]byte(s)] and [string(bs)]. *)
Definition bytes (s : string) : list byte := String.list_byte_of_string s.
Definition str (bs : list byte) : string := String.string_of_list_byte bs.

(** ** Bytes and 32-bit words *)

Definition Z_of_byte (b : byte) : Z := Z.of_N (Byte.to_N b).

(** The conversion [byte(x)]: the low eight bits. *)
Definition byte_of_Z (z : Z) : byte :=
  default x00 (Byte.of_N (Z.to_N (z mod 256))).

(** The conversion [uint32(x)]. *)
Definition uint32 (z : Z) : Z := z mod 2 ^ 32.

(** [binary.BigEndian.PutUint32(b, v)] on a fresh 4-byte slice. *)
Definition PutUint32 (v : Z) : list byte :=
  [ byte_of_Z (Z.shiftr v 24); byte_of_Z (Z.shiftr v 16);
    byte_of_Z (Z.shiftr v 8); byte_of_Z v ].

(** [binary.BigEndian.Uint32(b)]: starts with the bounds check [_ = b[3]]. *)
Definition Uint32 (b : list byte) : outcome Z :=
  match b with
  | b0 :: b1 :: b2 :: b3 :: _ =>
      Return (Z.lor (Z.lor (Z.lor (Z_of_byte b3) (Z.shiftl (Z_of_byte b2) 8))
                           (Z.shiftl (Z_of_byte b1) 16))
                    (Z.shiftl (Z_of_byte b0) 24))
  | _ => Panic IndexOutOfRange
  end.

(** The big-endian reading of a byte string, as the format describes it. *)
Definition be_value (b : list byte) : Z :=
  fold_left (λ acc x, acc * 256 + Z_of_byte x) b 0.

(** ** [hash/crc32]: the IEEE checksum, as the simple table algorithm *)

Definition IEEE : Z := 0xedb88320.

(** The inner loop of [simplePopulateTable]. *)
Fixpoint crc_bits (j : nat) (crc : Z) : Z :=
  match j with
  | O => crc
  | S j' =>
      crc_bits j' (if Z.land crc 1 =? 1
                   then Z.lxor (Z.shiftr crc 1) IEEE
                   else Z.shiftr crc 1)
  end.

Definition IEEETable (i : Z) : Z := crc_bits 8 i.

(** [^crc] on a [uint32]. *)
Definition not32 (crc : Z) : Z := Z.lxor crc 0xffffffff.

(** [simpleUpdate(crc, tab, p)]. *)
Definition simpleUpdate (crc : Z) (p : list byte) : Z :=
  not32 (fold_left
           (λ crc v, Z.lxor (IEEETable (Z.lxor (crc mod 256) (Z_of_byte v)))
                            (Z.shiftr crc 8))
           p (not32 crc)).

Definition ChecksumIEEE (data : list byte) : Z := simpleUpdate 0 data.

(** ** Package constants *)

(** [pngMagic = []byte{137, 80, 78, 71, 13, 10, 26, 10}] *)
Definition pngMagic : list byte := [x89; x50; x4e; x47; x0d; x0a; x1a; x0a].

Definition NULL_SEPERATOR : byte := x00.

(** ** [errIfNotSubStr] *)

Fixpoint errIfNotSubStr_loop (s : list byte) (i : nat) (sub : list byte)
  : outcome (option error) :=
  match sub with
  | [] => Return None
  | d :: sub' =>
      match s !! i with
      | None => Panic IndexOutOfRange
      | Some si =>
          if decide (d ≠ si) then Return (Some ErrByteMismatch)
          else errIfNotSubStr_loop s (S i) sub'
      end
  end.

Definition errIfNotSubStr (s sub : list byte) : outcome (option error) :=
  if decide (length s < length sub)%nat then Return (Some ErrSubstringLarger)
  else errIfNotSubStr_loop s 0 sub.

(** ** [isValidChunkType] and [buildChunk] *)

Definition validChunkTypes : list string :=
  [ "IHDR"; "PLTE"; "IDAT"; "IEND";
    "bKGD"; "cHRM"; "dSIG"; "eXIf"; "gAMA"; "hIST"; "iCCP"; "iTXt"; "pHYs";
    "sBIT"; "sPLT"; "sRGB"; "sTER"; "tEXt"; "tIME"; "tRNS"; "zTXt" ].

Fixpoint isValidChunkType_loop (vs : list string) (ct : string) : bool :=
  match vs with
  | [] => false
  | v :: vs' => if decide (v = ct) then true else isValidChunkType_loop vs' ct
  end.

Definition isValidChunkType (ct : string) : bool :=
  isValidChunkType_loop validChunkTypes ct.

Definition buildChunk (ct : string) (data : list byte) : result (list byte) :=
  if negb (isValidChunkType ct) then (None, Some (ErrInvalidChunkType ct))
  else
    let szbs := PutUint32 (uint32 (Z.of_nat (length data))) in
    let bb := bytes ct ++ data in
    let crcbs := PutUint32 (ChecksumIEEE bb) in
    let bb := bb ++ crcbs in
    (Some (szbs ++ bb), None).

(** ** [embed] *)

(** [bytes.Buffer.Next(n)]: the next [n] bytes, or all of them when fewer
    remain; the buffer advances past what was returned. *)
Definition Next (buf : list byte) (n : nat) : list byte * list byte :=
  (take n buf, drop n buf).

Definition embed (data chunk : list byte) : outcome (result (list byte)) :=
  let out := [] in
  let buf := data in
  let '(d, buf) := Next buf (length pngMagic) in
  let out := out ++ d in
  err ← errIfNotSubStr pngMagic d;
  match err with
  | Some e => Return (None, Some e)
  | None =>
      let '(d, buf) := Next buf 4 in
      let out := out ++ d in
      sz ← Uint32 d;
      let '(d, buf) := Next buf (Z.to_nat (uint32 (sz + 8))) in
      let out := out ++ d in
      let out := out ++ chunk in
      Return (Some (out ++ buf), None)
  end.

(** ** [to_bytes]: the value coder *)

(** The dynamic type of the [interface{}] argument, as [to_bytes] switches on
    it.  A float is the IEEE value it denotes.  The sized integer types are
    not named by the switch and take its default case.  [VOther] stands for
    every other dynamic type and carries what [json.Marshal] returns for
    it. *)
Inductive value : Type :=
| VInt (i : Z)                         (* int *)
| VUint (u : Z)                        (* uint *)
| VFloat32 (f : spec_float)            (* float32 *)
| VFloat64 (f : spec_float)            (* float64 *)
| VString (s : string)                 (* string *)
| VSized (i : Z)                       (* int8 .. int64, uint8 .. uint64 *)
| VOther (marshal : result (list byte)).

(** ['0' + n] *)
Definition digit (n : Z) : byte := byte_of_Z (48 + n).

(** The digit loop of [fmt]'s integer formatting:
    [for u >= 10 { next := u / 10; buf[i] = '0' + u - next*10; u = next }]
    and then the leading digit. *)
Fixpoint fmt_digits (fuel : nat) (u : Z) (acc : list byte) : list byte :=
  match fuel with
  | O => digit u :: acc
  | S fuel' =>
      if u <? 10 then digit u :: acc
      else fmt_digits fuel' (u / 10) (digit (u mod 10) :: acc)
  end.

Definition fmt_unsigned (u : Z) : list byte :=
  fmt_digits (Z.to_nat (Z.log2 u)) u [].

(** [fmt.Sprintf("%d", i)] *)
Definition Sprintf_d (i : Z) : list byte :=
  if i <? 0 then x2d :: fmt_unsigned (- i) else fmt_unsigned i.

(** Exactly [n] digits of [u], zero padded. *)
Fixpoint fmt_padded (n : nat) (u : Z) (acc : list byte) : list byte :=
  match n with
  | O => acc
  | S n' => fmt_padded n' (u / 10) (digit (u mod 10) :: acc)
  end.

(** [num / den] rounded to the nearest integer, ties to even ([den > 0]):
    the rounding of [strconv]'s decimal conversion. *)
Definition round_half_even (num den : Z) : Z :=
  let q := num / den in
  let r := num mod den in
  if 2 * r <? den then q
  else if den <? 2 * r then q + 1
  else if Z.even q then q else q + 1.

(** [|m * 2^e| * 10^6], rounded to an integer. *)
Definition micros (m : positive) (e : Z) : Z :=
  if 0 <=? e then Z.pos m * 2 ^ e * 10 ^ 6
  else round_half_even (Z.pos m * 10 ^ 6) (2 ^ (- e)).

Definition fmt_fixed6 (neg : bool) (n : Z) : list byte :=
  (if neg then [x2d] else []) ++
  fmt_unsigned (n / 10 ^ 6) ++ [x2e] ++ fmt_padded 6 (n mod 10 ^ 6) [].

(** [fmt.Sprintf("%f", f)]: [strconv.FormatFloat(f, 'f', 6, bits)], with
    [fmt]'s spelling of the values that are not numbers. *)
Definition Sprintf_f (f : spec_float) : list byte :=
  match f with
  | S754_nan => bytes "NaN"
  | S754_infinity false => bytes "+Inf"
  | S754_infinity true => bytes "-Inf"
  | S754_zero s => fmt_fixed6 s 0
  | S754_finite s m e => fmt_fixed6 s (micros m e)
  end.

(** [json.Marshal] on a value of a sized integer type ([int8] to [int64],
    [uint8] to [uint64]): the encoder of [encoding/json] for these kinds
    appends the decimal text ([strconv.AppendInt], [strconv.AppendUint], base
    ten) and the error is nil. *)
Definition json_Marshal_int (i : Z) : result (list byte) :=
  (Some (Sprintf_d i), None).

Definition to_bytes (v : value) : result (list byte) :=
  match v with
  | VInt vt | VUint vt => (Some (Sprintf_d vt), None)
  | VFloat32 vt | VFloat64 vt => (Some (Sprintf_f vt), None)
  | VString vt => (Some (bytes vt), None)
  | VSized vt => json_Marshal_int vt
  | VOther marshal => marshal
  end.

(** Decimal text, as the spec words it: every byte is one of ['0'..'9'], and
    the digits read in base ten. *)
Definition is_digit (b : byte) : Prop := 48 <= Z_of_byte b <= 57.

Definition decimal_value (s : list byte) : Z :=
  fold_left (λ acc b, acc * 10 + (Z_of_byte b - 48)) s 0.

(** Digits as a number is written: a non-empty run of digits that starts
    with ['0'] only when it is the single digit ["0"]. *)
Definition canonical_digits (ds : list byte) : Prop :=
  ds ≠ [] ∧ Forall is_digit ds ∧ ∀ ds', ds = x30 :: ds' → ds' = [].

(** Fixed-point text with six fraction digits: an optional minus sign, the
    digits of the integer part without leading zeros, a point and exactly
    six digits; [n] is the number of millionths it denotes. *)
Definition fixed_point6 (neg : bool) (n : Z) (s : list byte) : Prop :=
  ∃ ip fr : list byte,
    s = (if neg then [x2d] else []) ++ ip ++ [x2e] ++ fr ∧
    canonical_digits ip ∧ length fr = 6%nat ∧ Forall is_digit fr ∧
    decimal_value ip * 10 ^ 6 + decimal_value fr = n.

(** Decimal text of an integer: a minus sign exactly when it is negative,
    then the digits of its absolute value without leading zeros. *)
Definition decimal_text (i : Z) (s : list byte) : Prop :=
  ∃ ds : list byte,
    s = (if i <? 0 then [x2d] else []) ++ ds ∧
    canonical_digits ds ∧ decimal_value ds = Z.abs i.

(** The result [r] is a success, and its text is the one text that [P]
    describes. *)
Definition encodes_as (P : list byte → Prop) (r : result (list byte)) : Prop :=
  ∃ s, r = (Some s, None) ∧ P s ∧ ∀ s', P s' → s' = s.

(** ** Payload layouts *)

Definition formatTEXTChunk (text : list byte) (keyword : string) : list byte :=
  let tEXtChunk := bytes keyword ++ [NULL_SEPERATOR] in
  tEXtChunk ++ text.

Definition formatITXTChunk (text : list byte) (keyword : string)
    (compression_flag compression_method : Z)
    (language_tag translated_keyword : string) : list byte :=
  let iTXtChunk := bytes keyword ++ [NULL_SEPERATOR] in
  let iTXtChunk := iTXtChunk ++ [byte_of_Z compression_flag] in
  let iTXtChunk := iTXtChunk ++ [byte_of_Z compression_method] in
  let iTXtChunk := iTXtChunk ++ bytes language_tag in
  let iTXtChunk := iTXtChunk ++ [NULL_SEPERATOR] in
  let iTXtChunk := iTXtChunk ++ bytes translated_keyword in
  let iTXtChunk := iTXtChunk ++ [NULL_SEPERATOR] in
  iTXtChunk ++ text.

(** ** [EmbedTEXT] and [EmbedITXT] *)

Definition EmbedTEXT (data : list byte) (k : string) (v : value)
  : outcome (result (list byte)) :=
  let '(val, err) := to_bytes v in
  match err with
  | Some e => Return (None, Some e)
  | None =>
      let tEXtChunk := formatTEXTChunk (bytes_of val) k in
      let '(pngChunk, _) := buildChunk "tEXt" tEXtChunk in
      embed data (bytes_of pngChunk)
  end.

Definition EmbedITXT (data : list byte) (k : string) (v : value)
  : outcome (result (list byte)) :=
  let '(val, err) := to_bytes v in
  match err with
  | Some e => Return (None, Some e)
  | None =>
      let compression_flag := 0 in
      let compression_method := 0 in
      let language_tag := "" in
      let translate_keyword := "" in
      let iTXtChunk :=
        formatITXTChunk (bytes_of val) k compression_flag compression_method
                        language_tag translate_keyword in
      let '(pngChunk, _) := buildChunk "iTXt" iTXtChunk in
      embed data (bytes_of pngChunk)
  end.

(** ** The chunk reader ([github.com/sabhiram/pngr], an external collaborator) *)

(** What a reader hands out: the chunk's type and payload. *)
Record Chunk : Type := { CType : string; Data : list byte }.

(** The serialized form of a chunk: length, type, data, CRC over type+data. *)
Definition encode_chunk (c : Chunk) : list byte :=
  PutUint32 (Z.of_nat (length (Data c))) ++ bytes (CType c) ++ Data c ++
  PutUint32 (ChecksumIEEE (bytes (CType c) ++ Data c)).

(** Modelled from the spec: the reader's framing of one chunk (the package
    [pngr] is not part of this repository).  An exhausted buffer is the end
    of the stream, and so is a header, payload or checksum that runs past
    the end of the buffer ([io.EOF]); a checksum that does not match is a
    reader failure. *)
Definition read_chunk (buf : list byte) : (error + Chunk) * list byte :=
  if decide (buf = []) then (inl EOF, [])
  else
    match Uint32 (take 4 buf) with
    | Panic _ => (inl EOF, [])
    | Return n =>
        let ty := take 4 (drop 4 buf) in
        let body := drop 8 buf in
        let data := take (Z.to_nat n) body in
        let crc := take 4 (drop (Z.to_nat n) body) in
        if decide (length ty < 4)%nat
        then (inl EOF, [])
        else if decide (length data < Z.to_nat n)%nat
        then (inl EOF, [])
        else
          match Uint32 crc with
          | Panic _ => (inl EOF, [])
          | Return sum =>
              if decide (sum = ChecksumIEEE (ty ++ data))
              then (inr {| CType := str ty; Data := data |},
                    drop (Z.to_nat n + 4) body)
              else (inl (ErrReader "checksum mismatch"), [])
          end
    end.

(** A reader, seen through its [Next] calls: the chunks it returns with a nil
    error, in stream order, and the first non-nil error ([EOF] at the end of
    the stream). *)
Record Reader : Type := { Chunks : list Chunk; Err : error }.

(** Modelled from the spec: the chunks of the included types, in stream
    order, up to the end of the stream or the first failure.  The fuel
    bounds the number of chunks; a chunk takes at least twelve bytes, so the
    length of the buffer is enough. *)
Fixpoint read_chunks (fuel : nat) (included : list string) (buf : list byte)
  : Reader :=
  match fuel with
  | O => {| Chunks := []; Err := EOF |}
  | S fuel' =>
      match read_chunk buf with
      | (inl e, _) => {| Chunks := []; Err := e |}
      | (inr c, rest) =>
          let r := read_chunks fuel' included rest in
          if decide (CType c ∈ included)
          then {| Chunks := c :: Chunks r; Err := Err r |}
          else r
      end
  end.

(** Modelled from the spec: [pngr.NewReader(data, &ReaderOptions{
    IncludedChunkTypes: included})]; it fails on a buffer that does not start
    with the PNG signature. *)
Definition NewReader (data : list byte) (included : list string)
  : error + Reader :=
  if decide (take 8 data = pngMagic)
  then inr (read_chunks (S (length data)) included (drop 8 data))
  else inl (ErrReader "not a png stream").

(** ** [ExtractTEXT] *)

(** [bytes.IndexByte]-style search: the first index of [b], or [-1]. *)
Fixpoint IndexByte (s : list byte) (b : byte) : Z :=
  match s with
  | [] => -1
  | x :: s' =>
      if decide (x = b) then 0
      else let r := IndexByte s' b in if r <? 0 then -1 else r + 1
  end.

(** [strings.Index(string(data), string(0))]: [string(0)] is the one-byte
    string holding NUL. *)
Definition Index0 (data : list byte) : Z := IndexByte data x00.

(** The slice expressions [s[:hi]] and [s[lo:]], with their bounds checks. *)
Definition slice_to (s : list byte) (hi : Z) : outcome (list byte) :=
  if (0 <=? hi) && (hi <=? Z.of_nat (length s))
  then Return (take (Z.to_nat hi) s)
  else Panic SliceBoundsOutOfRange.

Definition slice_from (s : list byte) (lo : Z) : outcome (list byte) :=
  if (0 <=? lo) && (lo <=? Z.of_nat (length s))
  then Return (drop (Z.to_nat lo) s)
  else Panic SliceBoundsOutOfRange.

(** The body of [for ; err == nil; c, err = r.Next()], over the chunks the
    reader returns. *)
Fixpoint ExtractTEXT_loop (ret : gmap string (list byte)) (cs : list Chunk)
  : outcome (gmap string (list byte)) :=
  match cs with
  | [] => Return ret
  | c :: cs' =>
      let sz := Z.of_nat (length (Data c)) in
      let pt := Index0 (Data c) in
      if pt <? sz then
        key ← slice_to (Data c) pt;
        val ← slice_from (Data c) (pt + 1);
        ExtractTEXT_loop (<[str key := val]> ret) cs'
      else ExtractTEXT_loop ret cs'
  end.

(** [if err == io.EOF { err = nil }] *)
Definition clear_EOF (err : error) : option error :=
  if decide (err = EOF) then None else Some err.

Definition ExtractTEXT (data : list byte)
  : outcome (result (gmap string (list byte))) :=
  match NewReader data ["tEXt"] with
  | inl err => Return (None, Some err)
  | inr r =>
      ret ← ExtractTEXT_loop ∅ (Chunks r);
      Return (Some ret, clear_EOF (Err r))
  end.

(** ** [ExtractITXT] *)

(** A [bufio.Reader] over a byte slice is the bytes not yet consumed; each
    call returns its Go results and the reader's new state. *)
Definition bufio (A : Type) : Type := list byte → A * list byte.

(** [br.ReadBytes(delim)]: up to and including the first [delim]; without
    one, everything that is left and [io.EOF]. *)
Definition ReadBytes (delim : byte) : bufio (list byte * option error) :=
  λ br,
    let pt := IndexByte br delim in
    if pt <? 0 then ((br, Some EOF), [])
    else ((take (Z.to_nat (pt + 1)) br, None), drop (Z.to_nat (pt + 1)) br).

(** [br.Discard(n)]: skips [n] bytes; [io.EOF] when fewer are left. *)
Definition Discard (n : nat) : bufio (nat * option error) :=
  λ br,
    if decide (n ≤ length br)%nat then ((n, None), drop n br)
    else ((length br, Some EOF), []).

(** [io.ReadAll(br)] *)
Definition ReadAll : bufio (list byte * option error) :=
  λ br, ((br, None), []).

Definition readNullTerminated : bufio (outcome (string * option error)) :=
  λ br,
    let '((data, err), br) := ReadBytes NULL_SEPERATOR br in
    match err with
    | Some e => (Return ("", Some e), br)
    | None =>
        (d ← slice_to data (Z.of_nat (length data) - 1); Return (str d, None),
         br)
    end.

(** One iteration of the loop of [ExtractITXT]: the error it returns with,
    or the pair it stores in [ret]. *)
Definition parseITXT (data : list byte) : outcome (error + string * list byte) :=
  let br := data in
  let '(r, br) := readNullTerminated br in
  '(keyword, err) ← r;
  match err with
  | Some e => Return (inl e)
  | None =>
      let '((_, err), br) := Discard 1 br in
      match err with
      | Some e => Return (inl (ErrWrap "discard compression flag" e))
      | None =>
          let '((_, err), br) := Discard 1 br in
          match err with
          | Some e => Return (inl (ErrWrap "discard compression method" e))
          | None =>
              let '((_, err), br) := ReadBytes NULL_SEPERATOR br in
              match err with
              | Some e => Return (inl (ErrWrap "read language tag" e))
              | None =>
                  let '((_, err), br) := ReadBytes NULL_SEPERATOR br in
                  match err with
                  | Some e => Return (inl (ErrWrap "read translated keyword" e))
                  | None =>
                      let '((textBytes, err), br) := ReadAll br in
                      match err with
                      | Some e => Return (inl (ErrWrap "read text" e))
                      | None => Return (inr (keyword, textBytes))
                      end
                  end
              end
          end
      end
  end.

Fixpoint ExtractITXT_loop (ret : gmap string (list byte)) (cs : list Chunk)
  : outcome (error + gmap string (list byte)) :=
  match cs with
  | [] => Return (inr ret)
  | c :: cs' =>
      r ← parseITXT (Data c);
      match r with
      | inl e => Return (inl e)
      | inr (keyword, textBytes) =>
          ExtractITXT_loop (<[keyword := textBytes]> ret) cs'
      end
  end.

Definition ExtractITXT (data : list byte)
  : outcome (result (gmap string (list byte))) :=
  match NewReader data ["iTXt"] with
  | inl err => Return (None, Some err)
  | inr r =>
      res ← ExtractITXT_loop ∅ (Chunks r);
      match res with
      | inl e => Return (None, Some e)
      | inr ret => Return (Some ret, clear_EOF (Err r))
      end
  end.

(** An [iTXt] payload that ends too early, case by case: before the NUL
    that closes the keyword, before the compression flag, before the
    compression method, before the NUL that closes the language tag, before
    the NUL that closes the translated keyword. *)
Inductive itxt_truncated : list byte → Prop :=
| no_keyword_end (p : list byte) :
    x00 ∉ p → itxt_truncated p
| no_compression_flag (k : list byte) :
    x00 ∉ k → itxt_truncated (k ++ [x00])
| no_compression_method (k : list byte) (flag : byte) :
    x00 ∉ k → itxt_truncated (k ++ [x00; flag])
| no_language_end (k : list byte) (flag method : byte) (lang : list byte) :
    x00 ∉ k → x00 ∉ lang →
    itxt_truncated (k ++ x00 :: flag :: method :: lang)
| no_translated_end (k : list byte) (flag method : byte) (lang tk : list byte) :
    x00 ∉ k → x00 ∉ lang → x00 ∉ tk →
    itxt_truncated (k ++ x00 :: flag :: method :: lang ++ x00 :: tk).

(** A chunk the 32-bit length field can frame. *)
Definition framed (c : Chunk) : Prop :=
  length (bytes (CType c)) = 4%nat ∧ Z.of_nat (length (Data c)) < 2 ^ 32.

(** A chunk as the PNG format allows it: a four-byte type and at most
    [2^31 - 1] bytes of data. *)
Definition wf_chunk (c : Chunk) : Prop :=
  length (bytes (CType c)) = 4%nat ∧ Z.of_nat (length (Data c)) < 2 ^ 31.

(** A valid PNG stream: the signature, a first chunk, and further chunks. *)
Definition valid_png (png : list byte) (first : Chunk) (others : list Chunk)
  : Prop :=
  png = pngMagic ++ concat (map encode_chunk (first :: others)) ∧
  Forall wf_chunk (first :: others).

(** A keyword of 1 to 79 ASCII bytes, none of them NUL. *)
Definition valid_keyword (k : string) : Prop :=
  (1 ≤ length (bytes k) ≤ 79)%nat ∧
  Forall (λ b, 0 < Z_of_byte b < 128) (bytes k).

(** A string, an integer or a float. *)
Definition primitive (v : value) : Prop :=
  match v with VOther _ => False | _ => True end.

(** ** A minimal PNG for examples: signature, IHDR (1x1, 8-bit grey), IEND *)

Definition IHDR_1x1 : Chunk :=
  {| CType := "IHDR";
     Data := [x00; x00; x00; x01; x00; x00; x00; x01; x08; x00; x00; x00; x00] |}.

Definition IEND : Chunk := {| CType := "IEND"; Data := [] |}.

Definition tiny_png : list byte :=
  pngMagic ++ encode_chunk IHDR_1x1 ++ encode_chunk IEND.

(** The minimal PNG with one more chunk after IHDR. *)
Definition png_with (c : Chunk) : list byte :=
  pngMagic ++ encode_chunk IHDR_1x1 ++ encode_chunk c ++ encode_chunk IEND.

(** A [tEXt] payload without a separator, and the [iTXt] payload
    ["key\0\x00\x00langtext"] whose language tag is not closed. *)
Definition text_no_separator : Chunk :=
  {| CType := "tEXt"; Data := bytes "abc" |}.

Definition itxt_no_terminator : Chunk :=
  {| CType := "iTXt";
     Data := bytes "key" ++ x00 :: x00 :: x00 :: bytes "langtext" |}.

(** ** Reading a [tEXt] payload *)

(** The keyword and the text of a [tEXt] payload, split at its first NUL. *)
Definition text_key (c : Chunk) : string :=
  str (take (Z.to_nat (Index0 (Data c))) (Data c)).

Definition text_value (c : Chunk) : list byte :=
  drop (Z.to_nat (Index0 (Data c) + 1)) (Data c).

(** The number of bytes [embed] copies after the length field. *)
Definition first_chunk_span (data : list byte) : nat :=
  Z.to_nat (uint32 (be_value (take 4 (drop 8 data)) + 8)).

(** A complete [iTXt] payload with keyword [k] and text [text]: keyword,
    NUL, flag, method, language tag, NUL, translated keyword, NUL, text. *)
Definition itxt_fields (d k text : list byte) : Prop :=
  ∃ (flag method : byte) (lang tk : list byte),
    d = (k ++ x00 :: flag :: method :: lang ++ x00 :: tk ++ x00 :: text) ∧
    (x00 ∉ k) ∧ (x00 ∉ lang) ∧ (x00 ∉ tk).

(** Two complete [iTXt] chunks with the keyword [k]: the first says it is
    compressed and carries a language tag and a translated keyword. *)
Definition itxt_flagged : Chunk :=
  {| CType := "iTXt";
     Data := bytes "k" ++ x00 :: x01 :: x00 :: bytes "en" ++ x00 ::
             bytes "clef" ++ x00 :: bytes "old" |}.

Definition itxt_plain : Chunk :=
  {| CType := "iTXt";
     Data := bytes "k" ++ x00 :: x00 :: x00 :: [] ++ x00 :: [] ++ x00 ::
             bytes "new" |}.

(** The minimal PNG with two more chunks after IHDR. *)
Definition png_with2 (c1 c2 : Chunk) : list byte :=
  pngMagic ++ encode_chunk IHDR_1x1 ++ encode_chunk c1 ++ encode_chunk c2 ++
  encode_chunk IEND.

(** The map the loop of [ExtractTEXT] builds from payloads that all hold a
    separator: one insertion per chunk, in stream order. *)
Definition text_map (ret : gmap string (list byte)) (cs : list Chunk)
  : gmap string (list byte) :=
  fold_left (λ m c, <[text_key c := text_value c]> m) cs ret.

(** Two [tEXt] chunks with the same keyword. *)
Definition text_old : Chunk :=
  {| CType := "tEXt"; Data := bytes "k" ++ x00 :: bytes "old" |}.

Definition text_new : Chunk :=
  {| CType := "tEXt"; Data := bytes "k" ++ x00 :: bytes "new" |}.




(** * Properties *)

(** ** Bytes and words *)

Lemma Z_of_byte_range (b : byte) : 0 <= Z_of_byte b < 256.
Proof.
  unfold Z_of_byte. pose proof (Byte.to_N_bounded b). lia.
Qed.

Lemma Z_of_byte_of_Z (z : Z) : Z_of_byte (byte_of_Z z) = z mod 256.
Proof.
  unfold Z_of_byte, byte_of_Z.
  pose proof (Z.mod_pos_bound z 256 ltac:(lia)) as Hm.
  destruct (Byte.of_N (Z.to_N (z mod 256))) as [b|] eqn:E.
  - apply Byte.to_of_N in E. simpl. rewrite E. lia.
  - apply Byte.of_N_None_iff in E. lia.
Qed.

Lemma byte_of_Z_of_byte (b : byte) : byte_of_Z (Z_of_byte b) = b.
Proof.
  unfold byte_of_Z. pose proof (Z_of_byte_range b) as Hr.
  rewrite Z.mod_small by lia. unfold Z_of_byte.
  rewrite N2Z.id, Byte.of_to_N. reflexivity.
Qed.

Lemma testbit_above (n a i : Z) :
  0 <= n → 0 <= a < 2 ^ n → n <= i → Z.testbit a i = false.
Proof.
  intros Hn Ha Hi. rewrite <- (Z.mod_small a (2 ^ n)) by lia.
  apply Z.mod_pow2_bits_high. lia.
Qed.

Lemma lor_shiftl_add (n a b : Z) :
  0 <= n → 0 <= a < 2 ^ n → Z.lor a (Z.shiftl b n) = a + b * 2 ^ n.
Proof.
  intros Hn Ha.
  assert (Hland : Z.land a (Z.shiftl b n) = 0).
  { apply Z.bits_inj'. intros i Hi. rewrite Z.land_spec, Z.bits_0.
    destruct (Z.lt_ge_cases i n) as [Hlt|Hge].
    - rewrite Z.shiftl_spec_low by lia. apply andb_false_r.
    - rewrite (testbit_above n a i) by lia. reflexivity. }
  rewrite <- Z.lxor_lor by exact Hland.
  rewrite <- Z.add_nocarry_lxor by exact Hland.
  rewrite Z.shiftl_mul_pow2 by lia. reflexivity.
Qed.

Lemma Uint32_value (b0 b1 b2 b3 : byte) (l : list byte) :
  Uint32 (b0 :: b1 :: b2 :: b3 :: l) =
  Return (Z_of_byte b3 + Z_of_byte b2 * 2 ^ 8 + Z_of_byte b1 * 2 ^ 16
          + Z_of_byte b0 * 2 ^ 24).
Proof.
  pose proof (Z_of_byte_range b0). pose proof (Z_of_byte_range b1).
  pose proof (Z_of_byte_range b2). pose proof (Z_of_byte_range b3).
  unfold Uint32. f_equal.
  rewrite (lor_shiftl_add 8) by lia.
  rewrite (lor_shiftl_add 16) by lia.
  rewrite (lor_shiftl_add 24) by lia.
  reflexivity.
Qed.

Lemma Uint32_PutUint32 (v : Z) (l : list byte) :
  Uint32 (PutUint32 v ++ l) = Return (uint32 v).
Proof.
  unfold PutUint32. cbn [app]. rewrite Uint32_value. f_equal.
  rewrite !Z_of_byte_of_Z, !Z.shiftr_div_pow2 by lia. unfold uint32.
  change (2 ^ 8) with 256. change (2 ^ 16) with 65536.
  change (2 ^ 24) with 16777216. change (2 ^ 32) with 4294967296.
  Z.div_mod_to_equations. lia.
Qed.

Lemma length_PutUint32 (v : Z) : length (PutUint32 v) = 4%nat.
Proof. reflexivity. Qed.

Lemma uint32_small (v : Z) : 0 <= v < 2 ^ 32 → uint32 v = v.
Proof. intros H. unfold uint32. apply Z.mod_small. exact H. Qed.

(** ** The checksum is a 32-bit word *)

Lemma lxor_range (n a b : Z) :
  0 <= n → 0 <= a < 2 ^ n → 0 <= b < 2 ^ n → 0 <= Z.lxor a b < 2 ^ n.
Proof.
  intros Hn Ha Hb.
  assert (Hmod : Z.lxor a b mod 2 ^ n = Z.lxor a b).
  { apply Z.bits_inj'. intros i Hi.
    destruct (Z.lt_ge_cases i n) as [Hlt|Hge].
    - apply Z.mod_pow2_bits_low. lia.
    - rewrite Z.mod_pow2_bits_high by lia. rewrite Z.lxor_spec.
      rewrite (testbit_above n a i), (testbit_above n b i) by lia.
      reflexivity. }
  rewrite <- Hmod. apply Z.mod_pos_bound. lia.
Qed.

Lemma shiftr_range (a k : Z) :
  0 <= k → 0 <= a < 2 ^ 32 → 0 <= Z.shiftr a k < 2 ^ 32.
Proof.
  intros Hk Ha. rewrite Z.shiftr_div_pow2 by lia.
  assert (0 < 2 ^ k) by lia. split.
  - apply Z.div_pos; lia.
  - apply Z.le_lt_trans with a; [|lia].
    apply Z.div_le_upper_bound; [lia|]. nia.
Qed.

Lemma crc_bits_range (j : nat) (crc : Z) :
  0 <= crc < 2 ^ 32 → 0 <= crc_bits j crc < 2 ^ 32.
Proof.
  revert crc. induction j as [|j IH]; intros crc Hc; cbn [crc_bits]; [exact Hc|].
  apply IH. destruct (Z.land crc 1 =? 1).
  - apply lxor_range; [lia| apply shiftr_range; lia | unfold IEEE; lia].
  - apply shiftr_range; lia.
Qed.

Lemma not32_range (crc : Z) : 0 <= crc < 2 ^ 32 → 0 <= not32 crc < 2 ^ 32.
Proof. intros H. unfold not32. apply lxor_range; lia. Qed.

Lemma ChecksumIEEE_range (data : list byte) : 0 <= ChecksumIEEE data < 2 ^ 32.
Proof.
  unfold ChecksumIEEE, simpleUpdate. apply not32_range.
  assert (H0 : 0 <= not32 0 < 2 ^ 32) by (apply not32_range; lia).
  revert H0. generalize (not32 0). induction data as [|v data IH]; intros crc Hc.
  - exact Hc.
  - cbn [fold_left]. apply IH. apply lxor_range; [lia| |apply shiftr_range; lia].
    apply crc_bits_range.
    pose proof (Z_of_byte_range v).
    pose proof (Z.mod_pos_bound crc 256 ltac:(lia)).
    pose proof (lxor_range 8 (crc mod 256) (Z_of_byte v) ltac:(lia)
                  ltac:(lia) ltac:(lia)). lia.
Qed.

Example ChecksumIEEE_IEND : ChecksumIEEE (bytes "IEND") = 0xae426082.
Proof. vm_compute. reflexivity. Qed.

(** ** [errIfNotSubStr] and the signature check *)

Lemma errIfNotSubStr_loop_prefix (s pre sub : list byte) :
  errIfNotSubStr_loop (pre ++ sub ++ s) (length pre) sub = Return None.
Proof.
  revert pre. induction sub as [|d sub IH]; intros pre; [reflexivity|].
  cbn [errIfNotSubStr_loop app].
  rewrite list_lookup_middle by reflexivity.
  rewrite decide_False by (intros H; apply H; reflexivity).
  specialize (IH (pre ++ [d])).
  rewrite <- app_assoc, length_app in IH. cbn [app length] in IH.
  rewrite Nat.add_1_r in IH. exact IH.
Qed.

(** A prefix of [s] passes the check. *)
Lemma errIfNotSubStr_prefix (sub s : list byte) :
  errIfNotSubStr (sub ++ s) sub = Return None.
Proof.
  unfold errIfNotSubStr. rewrite decide_False by (rewrite length_app; lia).
  apply (errIfNotSubStr_loop_prefix s [] sub).
Qed.

Lemma errIfNotSubStr_loop_mismatch (s sub : list byte) (i : nat) :
  (i + length sub ≤ length s)%nat →
  sub ≠ take (length sub) (drop i s) →
  errIfNotSubStr_loop s i sub = Return (Some ErrByteMismatch).
Proof.
  revert i. induction sub as [|d sub IH]; intros i Hlen Hne.
  - exfalso. apply Hne. reflexivity.
  - cbn [errIfNotSubStr_loop]. cbn [length] in Hlen, Hne.
    destruct (s !! i) as [si|] eqn:Hsi.
    2:{ apply lookup_ge_None in Hsi. lia. }
    destruct (decide (d ≠ si)) as [|Heq]; [reflexivity|].
    apply dec_stable in Heq. subst si.
    apply IH; [lia|]. intros Hsub. apply Hne.
    rewrite (drop_S s d i Hsi). cbn [take]. f_equal. exact Hsub.
Qed.

(** Eight bytes that are not the signature are refused. *)
Lemma errIfNotSubStr_magic_mismatch (d : list byte) :
  length d = 8%nat → d ≠ pngMagic →
  errIfNotSubStr pngMagic d = Return (Some ErrByteMismatch).
Proof.
  intros Hlen Hne.
  do 9 (destruct d as [|? d]; try discriminate Hlen).
  unfold errIfNotSubStr. cbn [length pngMagic]. rewrite decide_False by lia.
  cbn [errIfNotSubStr_loop pngMagic lookup list_lookup].
  repeat match goal with
         | |- context [decide (?a ≠ ?b)] =>
             destruct (decide (a ≠ b)) as [|Heq];
             [reflexivity | apply dec_stable in Heq; subst a]
         end.
  exfalso. apply Hne. reflexivity.
Qed.

(** Bytes that are no prefix of [s] are refused. *)
Lemma errIfNotSubStr_not_prefix (s sub : list byte) :
  (length sub ≤ length s)%nat → ¬ sub `prefix_of` s →
  errIfNotSubStr s sub = Return (Some ErrByteMismatch).
Proof.
  intros Hlen Hnp. unfold errIfNotSubStr. rewrite decide_False by lia.
  apply errIfNotSubStr_loop_mismatch; [lia|].
  intros Heq. apply Hnp. exists (drop (length sub) s).
  rewrite Heq at 1. cbn [drop]. symmetry. apply take_drop.
Qed.

(** ** [embed] *)

Lemma Uint32_be_value (b : list byte) :
  length b = 4%nat → Uint32 b = Return (be_value b).
Proof.
  intros Hlen. do 5 (destruct b as [|? b]; try discriminate Hlen).
  rewrite Uint32_value. unfold be_value. cbn [fold_left]. f_equal. lia.
Qed.

Lemma be_value_PutUint32 (v : Z) : be_value (PutUint32 v) = uint32 v.
Proof.
  pose proof (Uint32_be_value (PutUint32 v) eq_refl) as H.
  rewrite <- (app_nil_r (PutUint32 v)) in H at 1.
  rewrite Uint32_PutUint32 in H. congruence.
Qed.

Lemma embed_unfold (data chunk : list byte) :
  embed data chunk =
  (err ← errIfNotSubStr pngMagic (take 8 data);
   match err with
   | Some e => Return (None, Some e)
   | None =>
       sz ← Uint32 (take 4 (drop 8 data));
       Return (Some (take 8 data ++ take 4 (drop 8 data) ++
                     take (Z.to_nat (uint32 (sz + 8))) (drop 12 data) ++
                     chunk ++
                     drop (12 + Z.to_nat (uint32 (sz + 8))) data), None)
   end).
Proof.
  unfold embed, Next. cbn [length pngMagic app].
  destruct (errIfNotSubStr _ _) as [[e|]|]; try reflexivity.
  destruct (Uint32 _) as [sz|]; try reflexivity.
  cbn. rewrite !drop_drop, <- !app_assoc. reflexivity.
Qed.

(** On a stream that starts with the signature and a 4-byte length field
    decoding to [sz], [embed] splices the chunk after the next
    [uint32 (sz + 8)] bytes. *)
Lemma embed_magic (hdr rest chunk : list byte) (sz : Z) :
  length hdr = 4%nat → be_value hdr = sz →
  embed (pngMagic ++ hdr ++ rest) chunk =
  Return (Some (pngMagic ++ hdr ++
                take (Z.to_nat (uint32 (sz + 8))) rest ++ chunk ++
                drop (Z.to_nat (uint32 (sz + 8))) rest), None).
Proof.
  intros Hlen Hsz. rewrite embed_unfold.
  assert (H8 : take 8 (pngMagic ++ hdr ++ rest) = pngMagic) by reflexivity.
  assert (Hd8 : drop 8 (pngMagic ++ hdr ++ rest) = hdr ++ rest) by reflexivity.
  rewrite H8, Hd8.
  rewrite <- (app_nil_r pngMagic) at 1. rewrite errIfNotSubStr_prefix.
  cbn [mbind outcome_bind].
  rewrite take_app_length' by done.
  rewrite (Uint32_be_value hdr Hlen), Hsz. cbn [mbind outcome_bind].
  assert (Hd12 : drop 12 (pngMagic ++ hdr ++ rest) = rest).
  { change 12%nat with (8 + 4)%nat. rewrite <- drop_drop, Hd8.
    apply drop_app_length'. done. }
  rewrite Hd12, <- drop_drop, Hd12. reflexivity.
Qed.

(** Whatever its length, a stream whose first bytes are no prefix of the
    signature is refused. *)
Lemma embed_rejects_non_prefix (data chunk : list byte) :
  ¬ take 8 data `prefix_of` pngMagic →
  embed data chunk = Return (None, Some ErrByteMismatch).
Proof.
  intros Hnp. rewrite embed_unfold.
  rewrite errIfNotSubStr_not_prefix; [reflexivity| |exact Hnp].
  rewrite length_take. cbn [length pngMagic]. lia.
Qed.




(** C4, amended. When the stream starts with the signature, the next four
    bytes read big-endian as [sz], at least [sz + 8] bytes follow them and
    [sz + 8] fits in 32 bits, [embed] returns the signature, the length
    field, the next [sz + 8] bytes, the chunk and then the rest of the
    stream; the output without the chunk is the input. *)
Theorem embed_splices_after_first_chunk (data chunk : list byte) (sz : Z) :
  take 8 data = pngMagic →
  be_value (take 4 (drop 8 data)) = sz →
  sz + 8 <= Z.of_nat (length (drop 12 data)) →
  sz + 8 < 2 ^ 32 →
  embed data chunk =
    Return (Some (take 8 data ++ take 4 (drop 8 data) ++
                  take (Z.to_nat (sz + 8)) (drop 12 data) ++ chunk ++
                  drop (12 + Z.to_nat (sz + 8)) data), None) ∧
  length (take (Z.to_nat (sz + 8)) (drop 12 data)) = Z.to_nat (sz + 8) ∧
  take 8 data ++ take 4 (drop 8 data) ++
    take (Z.to_nat (sz + 8)) (drop 12 data) ++
    drop (12 + Z.to_nat (sz + 8)) data = data.
Proof.
  intros Hmagic Hsz Hlen Hfit.
  assert (Hnn : 0 <= sz).
  { subst sz. unfold be_value. generalize (take 4 (drop 8 data)).
    assert (H : ∀ (l : list byte) a, 0 <= a →
                0 <= fold_left (λ acc x, acc * 256 + Z_of_byte x) l a).
    { induction l as [|x l IH]; intros a Ha; [exact Ha|].
      cbn [fold_left]. apply IH. pose proof (Z_of_byte_range x). lia. }
    intros l. apply H. lia. }
  rewrite length_drop in Hlen.
  assert (Hsplit : data = pngMagic ++ take 4 (drop 8 data) ++ drop 12 data).
  { rewrite <- Hmagic. change 12%nat with (8 + 4)%nat.
    rewrite <- drop_drop, take_drop, take_drop. reflexivity. }
  assert (Hhdr : length (take 4 (drop 8 data)) = 4%nat).
  { rewrite length_take, length_drop. lia. }
  split; [|split].
  - rewrite Hsplit at 1.
    rewrite (embed_magic _ _ _ sz Hhdr Hsz).
    rewrite uint32_small by lia. rewrite Hmagic.
    rewrite <- drop_drop. reflexivity.
  - rewrite length_take, length_drop. lia.
  - rewrite <- drop_drop, take_drop.
    change 12%nat with (8 + 4)%nat.
    rewrite <- drop_drop, take_drop, take_drop. reflexivity.
Qed.

Lemma embed_splices_after_first_chunk_witness :
  embed tiny_png [x2a] =
    Return (Some (take 8 tiny_png ++ take 4 (drop 8 tiny_png) ++
                  take (Z.to_nat (13 + 8)) (drop 12 tiny_png) ++ [x2a] ++
                  drop (12 + Z.to_nat (13 + 8)) tiny_png), None) ∧
  length (take (Z.to_nat (13 + 8)) (drop 12 tiny_png)) = Z.to_nat (13 + 8) ∧
  take 8 tiny_png ++ take 4 (drop 8 tiny_png) ++
    take (Z.to_nat (13 + 8)) (drop 12 tiny_png) ++
    drop (12 + Z.to_nat (13 + 8)) tiny_png = tiny_png.
Proof.
  apply (embed_splices_after_first_chunk tiny_png [x2a] 13).
  - vm_compute. reflexivity.
  - vm_compute. reflexivity.
  - vm_compute. discriminate.
  - vm_compute. reflexivity.
Defined.

(** C9, amended. On a stream shorter than eight bytes that is a prefix of
    the signature (the empty stream included) the signature check passes;
    [embed] then reads the length field from the exhausted buffer, where
    [binary.BigEndian.Uint32] panics: it returns neither an error nor a
    spliced stream. *)
Theorem embed_short_prefix_passes_check (data chunk : list byte) :
  (length data < 8)%nat → data `prefix_of` pngMagic →
  errIfNotSubStr pngMagic (fst (Next data (length pngMagic))) = Return None ∧
  embed data chunk = Panic IndexOutOfRange.
Proof.
  intros Hlen [s Hs].
  assert (Htake : take 8 data = data) by (apply take_ge; lia).
  assert (Hcheck : errIfNotSubStr pngMagic data = Return None).
  { rewrite Hs. apply errIfNotSubStr_prefix. }
  split.
  - cbn [fst Next length pngMagic]. rewrite Htake. exact Hcheck.
  - rewrite embed_unfold, Htake, Hcheck. cbn [mbind outcome_bind].
    rewrite drop_ge by lia. reflexivity.
Qed.

Lemma embed_short_prefix_passes_check_witness :
  errIfNotSubStr pngMagic (fst (Next [x89; x50; x4e] (length pngMagic)))
    = Return None ∧
  embed [x89; x50; x4e] [x2a] = Panic IndexOutOfRange.
Proof.
  apply (embed_short_prefix_passes_check [x89; x50; x4e] [x2a]).
  - vm_compute. lia.
  - exists [x47; x0d; x0a; x1a; x0a]. reflexivity.
Defined.

(** C9, as stated, fails: on the empty stream [embed] does not go on to
    return a spliced stream. *)
Lemma embed_empty_stream_panics :
  errIfNotSubStr pngMagic (fst (Next [] (length pngMagic))) = Return None ∧
  embed [] [x2a] = Panic IndexOutOfRange.
Proof. split; reflexivity. Qed.

(** A length field of [0xfffffff8] followed by [n = 2^32] bytes: [sz + 8]
    wraps to [0] in [uint32], so the chunk lands right after the length
    field and not after the [sz + 8] bytes that follow it. *)
Lemma embed_wraps_at (n : nat) :
  Z.of_nat n = 2 ^ 32 →
  let hdr := [xff; xff; xff; xf8] in
  let rest := replicate n x00 in
  let data := pngMagic ++ hdr ++ rest in
  take 8 data = pngMagic ∧
  be_value (take 4 (drop 8 data)) = 4294967288 ∧
  4294967288 + 8 <= Z.of_nat (length (drop 12 data)) ∧
  embed data [x2a] = Return (Some (pngMagic ++ hdr ++ [x2a] ++ rest), None) ∧
  embed data [x2a] ≠
    Return (Some (take 8 data ++ take 4 (drop 8 data) ++
                  take (Z.to_nat (4294967288 + 8)) (drop 12 data) ++ [x2a] ++
                  drop (12 + Z.to_nat (4294967288 + 8)) data), None).
Proof.
  intros Hn hdr rest data. change (2 ^ 32) with 4294967296 in Hn.
  assert (Hd12 : drop 12 data = rest) by reflexivity.
  assert (He : embed data [x2a] =
               Return (Some (pngMagic ++ hdr ++ [x2a] ++ rest), None)).
  { unfold data.
    rewrite (embed_magic hdr rest [x2a] 4294967288 eq_refl eq_refl).
    change (Z.to_nat (uint32 (4294967288 + 8))) with 0%nat.
    rewrite take_0, drop_0. reflexivity. }
  assert (Hlen : length rest = n) by apply length_replicate.
  assert (Hto : Z.to_nat (4294967288 + 8) = n) by lia.
  split; [reflexivity|]. split; [reflexivity|]. split; [|split].
  - rewrite Hd12, Hlen. lia.
  - exact He.
  - rewrite He, Hto, <- drop_drop, Hd12.
    rewrite (take_ge rest n), (drop_ge rest n) by (rewrite Hlen; lia).
    change (take 8 data) with pngMagic.
    change (take 4 (drop 8 data)) with hdr.
    intros Heq. injection Heq as Heq.
    unfold rest in Heq. destruct n as [|n]; [lia|].
    cbn [replicate app] in Heq. discriminate Heq.
Qed.

(** C4, as stated, fails: the stream of [embed_wraps_at] with its [2^32]
    bytes after the length field. *)
Lemma embed_length_wraps :
  let hdr := [xff; xff; xff; xf8] in
  let rest := replicate (2 ^ 32)%nat x00 in
  let data := pngMagic ++ hdr ++ rest in
  take 8 data = pngMagic ∧
  be_value (take 4 (drop 8 data)) = 4294967288 ∧
  4294967288 + 8 <= Z.of_nat (length (drop 12 data)) ∧
  embed data [x2a] = Return (Some (pngMagic ++ hdr ++ [x2a] ++ rest), None) ∧
  embed data [x2a] ≠
    Return (Some (take 8 data ++ take 4 (drop 8 data) ++
                  take (Z.to_nat (4294967288 + 8)) (drop 12 data) ++ [x2a] ++
                  drop (12 + Z.to_nat (4294967288 + 8)) data), None).
Proof. exact (embed_wraps_at (2 ^ 32)%nat (Nat2Z.inj_pow 2 32)). Qed.

(** ** [isValidChunkType] and [buildChunk] *)

Lemma isValidChunkType_loop_elem_of (vs : list string) (ct : string) :
  isValidChunkType_loop vs ct = true ↔ ct ∈ vs.
Proof.
  induction vs as [|v vs IH]; cbn [isValidChunkType_loop].
  - rewrite elem_of_nil. split; [discriminate|tauto].
  - rewrite elem_of_cons. destruct (decide (v = ct)) as [->|Hne].
    + split; [intros _; left|]; reflexivity.
    + rewrite IH. split; [intros H; right; exact H|].
      intros [->|H]; [congruence|exact H].
Qed.

Lemma buildChunk_valid (ct : string) (p : list byte) :
  isValidChunkType ct = true →
  buildChunk ct p =
  (Some (PutUint32 (uint32 (Z.of_nat (length p))) ++ bytes ct ++ p ++
         PutUint32 (ChecksumIEEE (bytes ct ++ p))), None).
Proof.
  intros H. unfold buildChunk. rewrite H. cbn [negb].
  rewrite <- app_assoc. reflexivity.
Qed.

Lemma whitelisted_length (ct : string) :
  isValidChunkType ct = true → length (bytes ct) = 4%nat.
Proof.
  intros H. apply isValidChunkType_loop_elem_of in H.
  unfold validChunkTypes in H.
  repeat (apply elem_of_cons in H as [->|H]; [reflexivity|]).
  inversion H.
Qed.

(** C7. A chunk type outside the whitelist makes [buildChunk] fail with the
    invalid-chunk-type error and a nil slice; a chunk type of the whitelist
    makes it succeed. *)
Theorem buildChunk_whitelist (ct : string) (p : list byte) :
  let whitelist :=
    [ "IHDR"; "PLTE"; "IDAT"; "IEND"; "bKGD"; "cHRM"; "dSIG"; "eXIf"; "gAMA";
      "hIST"; "iCCP"; "iTXt"; "pHYs"; "sBIT"; "sPLT"; "sRGB"; "sTER"; "tEXt";
      "tIME"; "tRNS"; "zTXt" ] in
  (ct ∉ whitelist → buildChunk ct p = (None, Some (ErrInvalidChunkType ct))) ∧
  (ct ∈ whitelist → ∃ bs, buildChunk ct p = (Some bs, None)).
Proof.
  intros whitelist.
  pose proof (isValidChunkType_loop_elem_of validChunkTypes ct) as Hw.
  change validChunkTypes with whitelist in Hw.
  change (isValidChunkType_loop whitelist ct) with (isValidChunkType ct) in Hw.
  split.
  - intros Hnot. unfold buildChunk.
    destruct (isValidChunkType ct); [|reflexivity].
    exfalso. apply Hnot, Hw. reflexivity.
  - intros Hin. apply Hw in Hin. eexists. apply buildChunk_valid. exact Hin.
Qed.

(** C6, amended. For a whitelisted chunk type and a payload shorter than
    [2^32] bytes, [buildChunk] returns four bytes that read big-endian as
    [len(p)], the four bytes of the type, the payload, and four bytes that
    read big-endian as the CRC-32 of type and payload; the checksum
    recomputed over bytes [4 .. 8 + len(p)) of the chunk is the value stored
    in its last four bytes. *)
Theorem buildChunk_layout (ct : string) (p : list byte) :
  isValidChunkType ct = true →
  Z.of_nat (length p) < 2 ^ 32 →
  ∃ len crc : list byte,
    buildChunk ct p = (Some (len ++ bytes ct ++ p ++ crc), None) ∧
    length len = 4%nat ∧ be_value len = Z.of_nat (length p) ∧
    length (bytes ct) = 4%nat ∧
    length crc = 4%nat ∧ be_value crc = ChecksumIEEE (bytes ct ++ p) ∧
    let chunk := len ++ bytes ct ++ p ++ crc in
    be_value (drop (8 + length p) chunk) =
    ChecksumIEEE (take (4 + length p) (drop 4 chunk)).
Proof.
  intros Hct Hfit.
  pose proof (whitelisted_length ct Hct) as Hty.
  exists (PutUint32 (uint32 (Z.of_nat (length p)))),
         (PutUint32 (ChecksumIEEE (bytes ct ++ p))).
  assert (Hcrc : be_value (PutUint32 (ChecksumIEEE (bytes ct ++ p))) =
                 ChecksumIEEE (bytes ct ++ p)).
  { rewrite be_value_PutUint32. apply uint32_small, ChecksumIEEE_range. }
  assert (Hlenv : be_value (PutUint32 (uint32 (Z.of_nat (length p)))) =
                  Z.of_nat (length p)).
  { rewrite be_value_PutUint32, (uint32_small (Z.of_nat _)) by lia.
    apply uint32_small. lia. }
  split; [apply buildChunk_valid; exact Hct|].
  split; [reflexivity|]. split; [exact Hlenv|].
  split; [exact Hty|]. split; [reflexivity|]. split; [exact Hcrc|].
  cbn zeta.
  set (crc := PutUint32 (ChecksumIEEE (bytes ct ++ p))) in *.
  assert (Hlen : length (bytes ct ++ p) = (4 + length p)%nat)
    by (rewrite length_app, Hty; reflexivity).
  change (8 + length p)%nat with (4 + (4 + length p))%nat.
  rewrite <- drop_drop.
  change (drop 4 (PutUint32 (uint32 (Z.of_nat (length p))) ++
                  bytes ct ++ p ++ crc))
    with (bytes ct ++ p ++ crc).
  rewrite (app_assoc (bytes ct) p crc), <- Hlen.
  rewrite take_app_length, drop_app_length. exact Hcrc.
Qed.

Lemma buildChunk_layout_witness :
  ∃ len crc : list byte,
    buildChunk "tEXt" [x6b; x00; x76] =
      (Some (len ++ bytes "tEXt" ++ [x6b; x00; x76] ++ crc), None) ∧
    length len = 4%nat ∧ be_value len = Z.of_nat 3 ∧
    length (bytes "tEXt") = 4%nat ∧
    length crc = 4%nat ∧
    be_value crc = ChecksumIEEE (bytes "tEXt" ++ [x6b; x00; x76]) ∧
    let chunk := len ++ bytes "tEXt" ++ [x6b; x00; x76] ++ crc in
    be_value (drop (8 + 3) chunk) =
    ChecksumIEEE (take (4 + 3) (drop 4 chunk)).
Proof.
  apply (buildChunk_layout "tEXt" [x6b; x00; x76]); reflexivity.
Defined.

(** The length field of a payload of [n = 2^32] bytes reads [0]. *)
Lemma buildChunk_wraps_at (n : nat) :
  Z.of_nat n = 2 ^ 32 →
  let p := replicate n x00 in
  isValidChunkType "tEXt" = true ∧
  ∃ len rest : list byte,
    buildChunk "tEXt" p = (Some (len ++ rest), None) ∧
    length len = 4%nat ∧ be_value len = 0 ∧
    Z.of_nat (length p) = 4294967296.
Proof.
  intros Hn p. change (2 ^ 32) with 4294967296 in Hn.
  split; [reflexivity|].
  assert (Hlen : Z.of_nat (length p) = 4294967296).
  { unfold p. rewrite length_replicate. exact Hn. }
  eexists (PutUint32 (uint32 (Z.of_nat (length p)))), _.
  split; [apply buildChunk_valid; reflexivity|].
  split; [reflexivity|]. split; [|exact Hlen].
  rewrite Hlen. reflexivity.
Qed.

(** C6, as stated, fails: for a payload of [2^32] bytes the four length bytes
    that [buildChunk] returns read [0], not [len(p)]. *)
Lemma buildChunk_length_wraps :
  let p := replicate (2 ^ 32)%nat x00 in
  isValidChunkType "tEXt" = true ∧
  ∃ len rest : list byte,
    buildChunk "tEXt" p = (Some (len ++ rest), None) ∧
    length len = 4%nat ∧ be_value len = 0 ∧
    Z.of_nat (length p) = 4294967296.
Proof. exact (buildChunk_wraps_at (2 ^ 32)%nat (Nat2Z.inj_pow 2 32)). Qed.

(** C10. In [EmbedTEXT] and [EmbedITXT] the call of [buildChunk] cannot
    fail: for the payload either of them formats, it returns a non-nil chunk
    and a nil error, and that chunk is what [embed] receives. *)
Theorem Embed_buildChunk_never_fails
    (data : list byte) (k : string) (v : value) (val : option (list byte)) :
  to_bytes v = (val, None) →
  (∃ pngChunk,
     buildChunk "tEXt" (formatTEXTChunk (bytes_of val) k) = (Some pngChunk, None) ∧
     EmbedTEXT data k v = embed data pngChunk) ∧
  (∃ pngChunk,
     buildChunk "iTXt" (formatITXTChunk (bytes_of val) k 0 0 "" "")
       = (Some pngChunk, None) ∧
     EmbedITXT data k v = embed data pngChunk).
Proof.
  intros Hv. unfold EmbedTEXT, EmbedITXT. rewrite Hv. split.
  - eexists. split; [apply buildChunk_valid; reflexivity|].
    rewrite buildChunk_valid by reflexivity. reflexivity.
  - eexists. split; [apply buildChunk_valid; reflexivity|].
    rewrite buildChunk_valid by reflexivity. reflexivity.
Qed.

Lemma Embed_buildChunk_never_fails_witness :
  (∃ pngChunk,
     buildChunk "tEXt" (formatTEXTChunk (bytes_of (Some (bytes "42"))) "TEST_KEY")
       = (Some pngChunk, None) ∧
     EmbedTEXT tiny_png "TEST_KEY" (VInt 42) = embed tiny_png pngChunk) ∧
  (∃ pngChunk,
     buildChunk "iTXt"
       (formatITXTChunk (bytes_of (Some (bytes "42"))) "TEST_KEY" 0 0 "" "")
       = (Some pngChunk, None) ∧
     EmbedITXT tiny_png "TEST_KEY" (VInt 42) = embed tiny_png pngChunk).
Proof.
  apply (Embed_buildChunk_never_fails tiny_png "TEST_KEY" (VInt 42)).
  reflexivity.
Defined.

(** ** [to_bytes] *)

Lemma digit_value (n : Z) : 0 <= n <= 9 → Z_of_byte (digit n) = 48 + n.
Proof.
  intros H. unfold digit. rewrite Z_of_byte_of_Z. apply Z.mod_small. lia.
Qed.

Lemma digit_is_digit (n : Z) : 0 <= n <= 9 → is_digit (digit n).
Proof. intros H. unfold is_digit. rewrite digit_value by exact H. lia. Qed.

Lemma decimal_value_snoc (ds : list byte) (d : byte) :
  decimal_value (ds ++ [d]) = decimal_value ds * 10 + (Z_of_byte d - 48).
Proof. unfold decimal_value. rewrite fold_left_app. reflexivity. Qed.

Lemma fmt_digits_spec (fuel : nat) :
  ∀ (u : Z) (acc : list byte),
    0 <= u < 2 ^ (Z.of_nat fuel + 1) →
    ∃ ds, fmt_digits fuel u acc = ds ++ acc ∧ ds ≠ [] ∧
          Forall is_digit ds ∧ decimal_value ds = u.
Proof.
  induction fuel as [|fuel IH]; intros u acc Hu.
  - change (2 ^ (Z.of_nat 0 + 1)) with 2 in Hu. exists [digit u].
    split; [reflexivity|]. split; [discriminate|].
    split; [constructor; [apply digit_is_digit; lia|constructor]|].
    unfold decimal_value. cbn [fold_left]. rewrite digit_value; lia.
  - cbn [fmt_digits]. destruct (Z.ltb_spec u 10) as [Hlt|Hge].
    + exists [digit u]. split; [reflexivity|]. split; [discriminate|].
      split; [constructor; [apply digit_is_digit; lia|constructor]|].
      unfold decimal_value. cbn [fold_left]. rewrite digit_value; lia.
    + assert (Hpow : 2 ^ (Z.of_nat (S fuel) + 1) = 2 * 2 ^ (Z.of_nat fuel + 1)).
      { rewrite Nat2Z.inj_succ, <- Z.pow_succ_r by lia. f_equal; lia. }
      destruct (IH (u / 10) (digit (u mod 10) :: acc)) as (ds & Heq & _ & Hds & Hval).
      { split; [apply Z.div_pos; lia|].
        apply Z.div_lt_upper_bound; lia. }
      pose proof (Z.mod_pos_bound u 10 ltac:(lia)) as Hm.
      exists (ds ++ [digit (u mod 10)]). split; [|split; [|split]].
      * rewrite Heq, <- app_assoc. reflexivity.
      * destruct ds; discriminate.
      * apply Forall_app. split; [exact Hds|].
        constructor; [apply digit_is_digit; lia|constructor].
      * rewrite decimal_value_snoc, Hval, digit_value by lia.
        pose proof (Z.div_mod u 10 ltac:(lia)). lia.
Qed.

Lemma fmt_unsigned_spec (u : Z) :
  0 <= u →
  ∃ ds, fmt_unsigned u = ds ∧ ds ≠ [] ∧ Forall is_digit ds ∧ decimal_value ds = u.
Proof.
  intros Hu. unfold fmt_unsigned.
  destruct (fmt_digits_spec (Z.to_nat (Z.log2 u)) u []) as (ds & Heq & H).
  - pose proof (Z.log2_nonneg u). rewrite Z2Nat.id by lia.
    destruct (Z.eq_dec u 0) as [->|Hne]; [cbn; lia|].
    pose proof (Z.log2_spec u ltac:(lia)) as [_ Hhi].
    rewrite Z.add_1_r. lia.
  - exists ds. rewrite Heq, app_nil_r. split; [reflexivity|exact H].
Qed.

Lemma fmt_padded_spec (n : nat) :
  ∀ (u : Z) (acc : list byte),
    0 <= u →
    ∃ ds, fmt_padded n u acc = ds ++ acc ∧ length ds = n ∧
          Forall is_digit ds ∧ decimal_value ds = u mod 10 ^ Z.of_nat n.
Proof.
  induction n as [|n IH]; intros u acc Hu.
  - exists []. split; [reflexivity|]. split; [reflexivity|].
    split; [constructor|]. cbn. rewrite Z.mod_1_r. reflexivity.
  - cbn [fmt_padded].
    destruct (IH (u / 10) (digit (u mod 10) :: acc)) as (ds & Heq & Hlen & Hds & Hval).
    { apply Z.div_pos; lia. }
    pose proof (Z.mod_pos_bound u 10 ltac:(lia)) as Hm.
    exists (ds ++ [digit (u mod 10)]). split; [|split; [|split]].
    + rewrite Heq, <- app_assoc. reflexivity.
    + rewrite length_app, Hlen. cbn. lia.
    + apply Forall_app. split; [exact Hds|].
      constructor; [apply digit_is_digit; lia|constructor].
    + rewrite decimal_value_snoc, Hval, digit_value by lia.
      rewrite Nat2Z.inj_succ, Z.pow_succ_r by lia.
      assert (0 < 10 ^ Z.of_nat n) by (apply Z.pow_pos_nonneg; lia).
      rewrite Z.rem_mul_r by lia. lia.
Qed.

Lemma Z_of_byte_inj (a b : byte) : Z_of_byte a = Z_of_byte b → a = b.
Proof.
  intros H. rewrite <- (byte_of_Z_of_byte a), <- (byte_of_Z_of_byte b), H.
  reflexivity.
Qed.

(** The first digit [fmt_digits] writes is [0] only for the number [0]. *)
Lemma fmt_digits_head (fuel : nat) :
  ∀ (u : Z) (acc : list byte),
    0 <= u < 2 ^ (Z.of_nat fuel + 1) →
    ∃ d ds, fmt_digits fuel u acc = digit d :: ds ++ acc ∧ 0 <= d <= 9 ∧
            (d = 0 → ds = []).
Proof.
  induction fuel as [|fuel IH]; intros u acc Hu.
  - change (2 ^ (Z.of_nat 0 + 1)) with 2 in Hu.
    exists u, []. split; [reflexivity|]. split; [lia|reflexivity].
  - cbn [fmt_digits]. destruct (Z.ltb_spec u 10) as [Hlt|Hge].
    + exists u, []. split; [reflexivity|]. split; [lia|reflexivity].
    + assert (Hpow : 2 ^ (Z.of_nat (S fuel) + 1) = 2 * 2 ^ (Z.of_nat fuel + 1)).
      { rewrite Nat2Z.inj_succ, <- Z.pow_succ_r by lia. f_equal; lia. }
      destruct (IH (u / 10) (digit (u mod 10) :: acc)) as (d & ds & Heq & Hd & Hz).
      { split; [apply Z.div_pos; lia|].
        apply Z.div_lt_upper_bound; lia. }
      exists d, (ds ++ [digit (u mod 10)]). split; [|split; [exact Hd|]].
      * rewrite Heq, <- app_assoc. reflexivity.
      * intros Hd0. exfalso.
        assert (Hq : 1 <= u / 10) by (apply Z.div_le_lower_bound; lia).
        specialize (Hz Hd0). subst d ds. cbn [app] in Heq.
        destruct (fmt_digits_spec fuel (u / 10) (digit (u mod 10) :: acc))
          as (ds' & Heq' & _ & _ & Hval).
        { split; [apply Z.div_pos; lia|].
          apply Z.div_lt_upper_bound; lia. }
        rewrite Heq in Heq'.
        change (digit 0 :: digit (u mod 10) :: acc)
          with ([digit 0] ++ digit (u mod 10) :: acc) in Heq'.
        apply app_inv_tail in Heq'. subst ds'.
        unfold decimal_value in Hval. cbn [fold_left] in Hval.
        rewrite digit_value in Hval by lia. lia.
Qed.

Lemma fmt_unsigned_canonical (u : Z) :
  0 <= u → canonical_digits (fmt_unsigned u) ∧ decimal_value (fmt_unsigned u) = u.
Proof.
  intros Hu.
  destruct (fmt_unsigned_spec u Hu) as (ds & Heq & Hne & Hds & Hval).
  rewrite Heq. split; [|exact Hval]. split; [exact Hne|]. split; [exact Hds|].
  intros ds' Hds'.
  destruct (fmt_digits_head (Z.to_nat (Z.log2 u)) u []) as (d & t & Hh & Hd & Hz).
  { pose proof (Z.log2_nonneg u). rewrite Z2Nat.id by lia.
    destruct (Z.eq_dec u 0) as [->|Hne0]; [cbn; lia|].
    pose proof (Z.log2_spec u ltac:(lia)) as [_ Hhi].
    rewrite Z.add_1_r. lia. }
  unfold fmt_unsigned in Heq. rewrite Heq, app_nil_r in Hh.
  rewrite Hds' in Hh. injection Hh as Hd0 ->.
  apply Hz. apply (f_equal Z_of_byte) in Hd0.
  rewrite digit_value in Hd0 by exact Hd.
  change (Z_of_byte x30) with 48 in Hd0. lia.
Qed.

(** The value of digits, from any start. *)
Lemma decimal_value_from (ds : list byte) (a : Z) :
  fold_left (λ acc b, acc * 10 + (Z_of_byte b - 48)) ds a =
  a * 10 ^ Z.of_nat (length ds) + decimal_value ds.
Proof.
  unfold decimal_value. revert a.
  induction ds as [|x ds IH]; intros a; cbn [fold_left length].
  - change (10 ^ Z.of_nat 0) with 1. lia.
  - rewrite (IH (a * 10 + _)), (IH (0 * 10 + _)).
    rewrite Nat2Z.inj_succ, Z.pow_succ_r by lia. ring.
Qed.

Lemma decimal_value_cons (d : byte) (ds : list byte) :
  decimal_value (d :: ds) =
  (Z_of_byte d - 48) * 10 ^ Z.of_nat (length ds) + decimal_value ds.
Proof.
  unfold decimal_value at 1. cbn [fold_left].
  rewrite decimal_value_from. f_equal.
Qed.

Lemma decimal_value_bounds (ds : list byte) :
  Forall is_digit ds → 0 <= decimal_value ds < 10 ^ Z.of_nat (length ds).
Proof.
  induction 1 as [|d ds Hd Hds IH].
  - cbn. lia.
  - rewrite decimal_value_cons. cbn [length].
    rewrite Nat2Z.inj_succ, Z.pow_succ_r by lia.
    unfold is_digit in Hd. nia.
Qed.

(** Digits of one length are determined by their value. *)
Lemma digits_same_length_unique (a : list byte) :
  ∀ b, Forall is_digit a → Forall is_digit b → length a = length b →
       decimal_value a = decimal_value b → a = b.
Proof.
  induction a as [|x a IH]; intros [|y b] Ha Hb Hlen Hval;
    try discriminate Hlen; [reflexivity|].
  apply Forall_cons in Ha as [Hx Ha]. apply Forall_cons in Hb as [Hy Hb].
  injection Hlen as Hlen. rewrite !decimal_value_cons, Hlen in Hval.
  pose proof (decimal_value_bounds a Ha) as Hba.
  pose proof (decimal_value_bounds b Hb) as Hbb.
  rewrite Hlen in Hba. unfold is_digit in Hx, Hy.
  assert (Hxy : Z_of_byte x = Z_of_byte y) by nia.
  rewrite Hxy in Hval. apply Z_of_byte_inj in Hxy. subst y.
  f_equal. apply IH; [assumption..|lia].
Qed.

(** Digits without leading zeros are determined by their value. *)
Lemma canonical_digits_unique (a b : list byte) :
  canonical_digits a → canonical_digits b →
  decimal_value a = decimal_value b → a = b.
Proof.
  assert (Hlow : ∀ ds, canonical_digits ds →
            (decimal_value ds = 0 ∧ ds = [x30]) ∨
            10 ^ Z.of_nat (length ds - 1) <= decimal_value ds).
  { intros [|d ds] (Hne & Hds & Hz); [congruence|].
    apply Forall_cons in Hds as [Hd Hds].
    pose proof (decimal_value_bounds ds Hds) as Hb.
    rewrite decimal_value_cons. cbn [length].
    replace (S (length ds) - 1)%nat with (length ds) by lia.
    unfold is_digit in Hd.
    destruct (Z.eq_dec (Z_of_byte d) 48) as [H0|Hn0].
    - left. change 48 with (Z_of_byte x30) in H0. apply Z_of_byte_inj in H0.
      subst d. rewrite (Hz ds eq_refl). split; reflexivity.
    - right. nia. }
  intros Ha Hb Hval.
  pose proof Ha as (_ & Hda & _). pose proof Hb as (_ & Hdb & _).
  pose proof (decimal_value_bounds a Hda) as Hua.
  pose proof (decimal_value_bounds b Hdb) as Hub.
  destruct (Hlow a Ha) as [[Ha0 ->]|Hla]; destruct (Hlow b Hb) as [[Hb0 ->]|Hlb].
  - reflexivity.
  - exfalso. rewrite <- Hval in Hlb. change (decimal_value [x30]) with 0 in Hlb.
    assert (0 < 10 ^ Z.of_nat (length b - 1)) by (apply Z.pow_pos_nonneg; lia).
    lia.
  - exfalso. rewrite Hval in Hla. change (decimal_value [x30]) with 0 in Hla.
    assert (0 < 10 ^ Z.of_nat (length a - 1)) by (apply Z.pow_pos_nonneg; lia).
    lia.
  - apply digits_same_length_unique; [assumption..| |exact Hval].
    destruct (Nat.lt_trichotomy (length a) (length b)) as [Hlt|[Heq|Hgt]];
      [exfalso|exact Heq|exfalso].
    + assert (10 ^ Z.of_nat (length a) <= 10 ^ Z.of_nat (length b - 1))
        by (apply Z.pow_le_mono_r; lia).
      lia.
    + assert (10 ^ Z.of_nat (length b) <= 10 ^ Z.of_nat (length a - 1))
        by (apply Z.pow_le_mono_r; lia).
      lia.
Qed.

(** The decimal text of an integer is one text. *)
Lemma decimal_text_pins (i : Z) (s s' : list byte) :
  decimal_text i s → decimal_text i s' → s' = s.
Proof.
  intros (ds & -> & Hc & Hv) (ds' & -> & Hc' & Hv'). f_equal.
  apply canonical_digits_unique; [assumption..|]. congruence.
Qed.

(** The fixed-point text of a number of millionths is one text. *)
Lemma fixed_point6_pins (neg : bool) (n : Z) (s s' : list byte) :
  fixed_point6 neg n s → fixed_point6 neg n s' → s' = s.
Proof.
  intros (ip & fr & -> & Hc & Hl & Hd & Hv) (ip' & fr' & -> & Hc' & Hl' & Hd' & Hv').
  pose proof (decimal_value_bounds fr Hd) as Hb.
  pose proof (decimal_value_bounds fr' Hd') as Hb'.
  rewrite Hl in Hb. rewrite Hl' in Hb'.
  change (10 ^ Z.of_nat 6) with 1000000 in Hb, Hb'.
  change (10 ^ 6) with 1000000 in Hv, Hv'.
  assert (Hip : decimal_value ip' = decimal_value ip) by lia.
  assert (Hfr : decimal_value fr' = decimal_value fr) by lia.
  rewrite (canonical_digits_unique ip' ip Hc' Hc Hip).
  rewrite (digits_same_length_unique fr' fr Hd' Hd ltac:(congruence) Hfr).
  reflexivity.
Qed.

Lemma Sprintf_d_decimal (i : Z) : decimal_text i (Sprintf_d i).
Proof.
  unfold decimal_text, Sprintf_d. destruct (Z.ltb_spec i 0) as [Hneg|Hpos].
  - destruct (fmt_unsigned_canonical (- i) ltac:(lia)) as [Hc Hval].
    exists (fmt_unsigned (- i)). split; [reflexivity|]. split; [exact Hc|lia].
  - destruct (fmt_unsigned_canonical i Hpos) as [Hc Hval].
    exists (fmt_unsigned i). split; [reflexivity|]. split; [exact Hc|lia].
Qed.

Lemma fmt_fixed6_spec (neg : bool) (n : Z) :
  0 <= n → fixed_point6 neg n (fmt_fixed6 neg n).
Proof.
  intros Hn. unfold fixed_point6, fmt_fixed6.
  destruct (fmt_unsigned_canonical (n / 10 ^ 6)) as [Hc Hipv].
  { apply Z.div_pos; lia. }
  destruct (fmt_padded_spec 6 (n mod 10 ^ 6) []) as (fr & Hfr & Hlen & Hfrd & Hfrv).
  { apply Z.mod_pos_bound. lia. }
  exists (fmt_unsigned (n / 10 ^ 6)), fr. rewrite Hfr, app_nil_r.
  split; [reflexivity|]. split; [exact Hc|].
  split; [exact Hlen|]. split; [exact Hfrd|].
  rewrite Hipv, Hfrv. change (Z.of_nat 6) with 6.
  rewrite Z.mod_mod by lia. pose proof (Z.div_mod n (10 ^ 6) ltac:(lia)). lia.
Qed.

Lemma encodes_as_decimal (i : Z) :
  encodes_as (decimal_text i) (Some (Sprintf_d i), None).
Proof.
  exists (Sprintf_d i). split; [reflexivity|].
  split; [apply Sprintf_d_decimal|].
  intros s' Hs'. apply (decimal_text_pins i); [apply Sprintf_d_decimal|exact Hs'].
Qed.

Lemma encodes_as_fixed6 (neg : bool) (n : Z) :
  0 <= n → encodes_as (fixed_point6 neg n) (Some (fmt_fixed6 neg n), None).
Proof.
  intros Hn. exists (fmt_fixed6 neg n). split; [reflexivity|].
  split; [apply fmt_fixed6_spec; exact Hn|].
  intros s' Hs'.
  apply (fixed_point6_pins neg n); [apply fmt_fixed6_spec; exact Hn|exact Hs'].
Qed.

(** The encoder on small inputs: [-42], an [int8] 7, [1.5], [-0.5] and
    [0.0]. *)
Example to_bytes_examples :
  to_bytes (VInt (-42)) = (Some (bytes "-42"), None) ∧
  to_bytes (VSized 7) = (Some (bytes "7"), None) ∧
  to_bytes (VFloat64 (S754_finite false 3 (-1))) = (Some (bytes "1.500000"), None) ∧
  to_bytes (VFloat32 (S754_finite true 1 (-1))) = (Some (bytes "-0.500000"), None) ∧
  to_bytes (VFloat64 (S754_zero false)) = (Some (bytes "0.000000"), None).
Proof. repeat split; vm_compute; reflexivity. Qed.

Lemma round_half_even_nonneg (num den : Z) :
  0 <= num → 0 < den → 0 <= round_half_even num den.
Proof.
  intros Hnum Hden. unfold round_half_even.
  pose proof (Z.div_pos num den Hnum Hden).
  repeat match goal with |- context [if ?b then _ else _] => destruct b end; lia.
Qed.

Lemma micros_nonneg (m : positive) (e : Z) : 0 <= micros m e.
Proof.
  unfold micros. destruct (Z.leb_spec 0 e) as [He|He].
  - assert (0 < 2 ^ e) by (apply Z.pow_pos_nonneg; lia). nia.
  - apply round_half_even_nonneg; [lia|]. apply Z.pow_pos_nonneg; lia.
Qed.

(** The integer that [micros] picks is a nearest one: twice its distance to
    [m * 10^6 / 2^(-e)] is at most one. *)
Lemma micros_nearest (m : positive) (e : Z) :
  e < 0 →
  Z.abs (2 * (micros m e * 2 ^ (- e) - Z.pos m * 10 ^ 6)) <= 2 ^ (- e).
Proof.
  intros He. unfold micros. destruct (Z.leb_spec 0 e) as [|_]; [lia|].
  assert (Hden : 0 < 2 ^ (- e)) by (apply Z.pow_pos_nonneg; lia).
  generalize dependent (2 ^ (- e)). intros den Hden.
  generalize (Z.pos m * 10 ^ 6). intros num.
  unfold round_half_even.
  pose proof (Z.div_mod num den ltac:(lia)) as Hdm.
  pose proof (Z.mod_pos_bound num den Hden) as Hr.
  destruct (Z.ltb_spec (2 * (num mod den)) den);
    [|destruct (Z.ltb_spec den (2 * (num mod den)));
      [|destruct (Z.even (num / den))]]; nia.
Qed.

(** C8, amended. [to_bytes] turns an integer of any integer type into its
    decimal text: a minus sign for a negative value, then the digits with no
    leading zero and nothing between them, and no other text fits.  A finite
    float becomes the fixed-point text of its value rounded to millionths:
    sign, integer digits, a point and exactly six fraction digits, and no
    other text fits.  The floats that are not numbers come out as [NaN],
    [+Inf] and [-Inf].  A string becomes its bytes. *)
Theorem to_bytes_primitive (v : value) :
  match v with
  | VInt i | VUint i | VSized i => encodes_as (decimal_text i) (to_bytes v)
  | VFloat32 f | VFloat64 f =>
      match f with
      | S754_zero neg => encodes_as (fixed_point6 neg 0) (to_bytes v)
      | S754_finite neg m e =>
          encodes_as (fixed_point6 neg (micros m e)) (to_bytes v)
      | S754_infinity neg =>
          to_bytes v = (Some (bytes (if neg then "-Inf" else "+Inf")), None)
      | S754_nan => to_bytes v = (Some (bytes "NaN"), None)
      end
  | VString s => to_bytes v = (Some (bytes s), None)
  | VOther marshal => to_bytes v = marshal
  end.
Proof.
  destruct v as [i|i|f|f|s|i|marshal]; cbn [to_bytes json_Marshal_int];
    try reflexivity; try apply encodes_as_decimal;
    destruct f as [neg|neg| |neg m e]; cbn [Sprintf_f];
    try (destruct neg; reflexivity); try reflexivity;
    apply encodes_as_fixed6; lia || apply micros_nonneg.
Qed.

(** C8, as stated, fails: a float need not come out as fixed-point text.
    The float64 NaN is encoded as the three bytes [NaN], which hold no
    decimal point. *)
Lemma to_bytes_NaN_not_fixed_point :
  to_bytes (VFloat64 S754_nan) = (Some [x4e; x61; x4e], None) ∧
  ∀ neg n, ¬ fixed_point6 neg n [x4e; x61; x4e].
Proof.
  split; [reflexivity|].
  intros neg n (ip & fr & Heq & _).
  assert (Hin : x2e ∈ [x4e; x61; x4e]).
  { rewrite Heq. rewrite !elem_of_app. right. right. left.
    apply elem_of_cons. left. reflexivity. }
  rewrite !elem_of_cons, elem_of_nil in Hin.
  destruct Hin as [H|[H|[H|H]]]; try discriminate H. exact H.
Qed.

(** ** Searching for the separator *)

Lemma IndexByte_not_elem_of (s : list byte) (b : byte) :
  b ∉ s → IndexByte s b = -1.
Proof.
  induction s as [|x s IH]; intros Hb; [reflexivity|].
  apply not_elem_of_cons in Hb as [Hne Hb]. cbn [IndexByte].
  rewrite decide_False by congruence. rewrite (IH Hb). reflexivity.
Qed.

Lemma IndexByte_first (k rest : list byte) (b : byte) :
  b ∉ k → IndexByte (k ++ b :: rest) b = Z.of_nat (length k).
Proof.
  induction k as [|x k IH]; intros Hb.
  - cbn. rewrite decide_True by reflexivity. reflexivity.
  - apply not_elem_of_cons in Hb as [Hne Hb]. cbn [IndexByte app length].
    rewrite decide_False by congruence. rewrite (IH Hb).
    destruct (Z.ltb_spec (Z.of_nat (length k)) 0); lia.
Qed.

Lemma ReadBytes_not_elem_of (s : list byte) (b : byte) :
  b ∉ s → ReadBytes b s = ((s, Some EOF), []).
Proof.
  intros Hb. unfold ReadBytes. rewrite (IndexByte_not_elem_of s b Hb).
  reflexivity.
Qed.

Lemma ReadBytes_first (k rest : list byte) (b : byte) :
  b ∉ k → ReadBytes b (k ++ b :: rest) = ((k ++ [b], None), rest).
Proof.
  intros Hb. unfold ReadBytes. rewrite (IndexByte_first k rest b Hb).
  destruct (Z.ltb_spec (Z.of_nat (length k)) 0) as [|_]; [lia|].
  replace (Z.to_nat (Z.of_nat (length k) + 1)) with (length (k ++ [b]))
    by (rewrite length_app; cbn; lia).
  replace (k ++ b :: rest) with ((k ++ [b]) ++ rest)
    by (rewrite <- app_assoc; reflexivity).
  rewrite take_app_length, drop_app_length. reflexivity.
Qed.

Lemma ReadBytes_here (rest : list byte) (b : byte) :
  ReadBytes b (b :: rest) = (([b], None), rest).
Proof. apply (ReadBytes_first [] rest b), not_elem_of_nil. Qed.

Lemma readNullTerminated_not_elem_of (s : list byte) :
  x00 ∉ s → readNullTerminated s = (Return ("", Some EOF), []).
Proof.
  intros Hs. unfold readNullTerminated, NULL_SEPERATOR.
  rewrite (ReadBytes_not_elem_of s x00 Hs). reflexivity.
Qed.

Lemma readNullTerminated_first (k rest : list byte) :
  x00 ∉ k →
  readNullTerminated (k ++ x00 :: rest) = (Return (str k, None), rest).
Proof.
  intros Hk. unfold readNullTerminated, NULL_SEPERATOR.
  rewrite (ReadBytes_first k rest x00 Hk). unfold slice_to.
  rewrite length_app. cbn [length].
  replace (Z.of_nat (length k + 1) - 1) with (Z.of_nat (length k)) by lia.
  destruct (Z.leb_spec 0 (Z.of_nat (length k))) as [_|]; [|lia].
  destruct (Z.leb_spec (Z.of_nat (length k)) (Z.of_nat (length k + 1)))
    as [_|]; [|lia].
  cbn [andb mbind outcome_bind]. rewrite Nat2Z.id, take_app_length.
  reflexivity.
Qed.

Lemma no_null_check (l : list byte) : bool_decide (x00 ∈ l) = false → x00 ∉ l.
Proof. intros H. apply bool_decide_eq_false in H. exact H. Qed.

Lemma Discard_cons (x : byte) (br : list byte) :
  Discard 1 (x :: br) = ((1%nat, None), br).
Proof.
  unfold Discard. cbn [length]. rewrite decide_True by lia. reflexivity.
Qed.

(** Every payload holds a first NUL or none. *)
Lemma split_at_first (b : byte) (s : list byte) :
  b ∉ s ∨ ∃ k rest, s = k ++ b :: rest ∧ b ∉ k.
Proof.
  induction s as [|x s IH]; [left; apply not_elem_of_nil|].
  destruct (decide (x = b)) as [->|Hne].
  - right. exists [], s. split; [reflexivity|apply not_elem_of_nil].
  - destruct IH as [Hs|(k & rest & -> & Hk)].
    + left. apply not_elem_of_cons. split; [congruence|exact Hs].
    + right. exists (x :: k), rest. split; [reflexivity|].
      apply not_elem_of_cons. split; [congruence|exact Hk].
Qed.

(** ** [ExtractITXT] *)

(** One iteration never panics. *)
Lemma parseITXT_returns (data : list byte) : ∃ r, parseITXT data = Return r.
Proof.
  unfold parseITXT.
  destruct (split_at_first x00 data) as [Hno|(k & rest & -> & Hk)].
  - rewrite (readNullTerminated_not_elem_of data Hno).
    cbn [mbind outcome_bind]. eexists. reflexivity.
  - rewrite (readNullTerminated_first k rest Hk). cbn [mbind outcome_bind].
    repeat match goal with
           | |- context [Discard ?n ?b] => destruct (Discard n b) as [[? [?|]] ?]
           | |- context [ReadBytes ?d ?b] => destruct (ReadBytes d b) as [[? [?|]] ?]
           | |- context [ReadAll ?b] => destruct (ReadAll b) as [[? [?|]] ?]
           end; eexists; reflexivity.
Qed.

Lemma parseITXT_truncated (data : list byte) :
  itxt_truncated data → ∃ e, parseITXT data = Return (inl e).
Proof.
  intros Ht. unfold parseITXT.
  destruct Ht as [p Hp|k Hk|k flag Hk|k flag method lang Hk Hl
                 |k flag method lang tk Hk Hl Ht].
  - rewrite (readNullTerminated_not_elem_of p Hp). eexists. reflexivity.
  - rewrite (readNullTerminated_first k [] Hk). eexists. reflexivity.
  - rewrite (readNullTerminated_first k [flag] Hk). eexists. reflexivity.
  - rewrite (readNullTerminated_first k (flag :: method :: lang) Hk).
    cbn [mbind outcome_bind]. rewrite !Discard_cons. unfold NULL_SEPERATOR.
    rewrite (ReadBytes_not_elem_of lang x00 Hl). eexists. reflexivity.
  - rewrite (readNullTerminated_first k
               (flag :: method :: lang ++ x00 :: tk) Hk).
    cbn [mbind outcome_bind]. rewrite !Discard_cons. unfold NULL_SEPERATOR.
    rewrite (ReadBytes_first lang tk x00 Hl).
    rewrite (ReadBytes_not_elem_of tk x00 Ht). eexists. reflexivity.
Qed.

Lemma ExtractITXT_loop_truncated (pre post : list Chunk) (c : Chunk) :
  itxt_truncated (Data c) →
  ∀ ret, ∃ e, ExtractITXT_loop ret (pre ++ c :: post) = Return (inl e).
Proof.
  intros Ht. induction pre as [|c' pre IH]; intros ret; cbn [app ExtractITXT_loop].
  - destruct (parseITXT_truncated (Data c) Ht) as [e ->].
    exists e. reflexivity.
  - destruct (parseITXT_returns (Data c')) as [[e|[keyword textBytes]] ->];
      cbn [mbind outcome_bind].
    + exists e. reflexivity.
    + apply IH.
Qed.

(** C3. When the reader yields an [iTXt] chunk whose payload ends before one
    of the three NUL delimiters or before the two compression bytes,
    [ExtractITXT] returns an error and a nil map, whatever the chunks before
    and after it hold. *)
Theorem ExtractITXT_truncated_aborts
    (data : list byte) (r : Reader) (pre post : list Chunk) (c : Chunk) :
  NewReader data ["iTXt"] = inr r →
  Chunks r = pre ++ c :: post →
  itxt_truncated (Data c) →
  ∃ e, ExtractITXT data = Return (None, Some e).
Proof.
  intros Hr Hcs Ht. unfold ExtractITXT. rewrite Hr, Hcs.
  destruct (ExtractITXT_loop_truncated pre post c Ht ∅) as [e ->].
  exists e. reflexivity.
Qed.

Lemma ExtractITXT_truncated_aborts_witness :
  ∃ e, ExtractITXT (png_with itxt_no_terminator) = Return (None, Some e).
Proof.
  apply (ExtractITXT_truncated_aborts (png_with itxt_no_terminator)
           {| Chunks := [itxt_no_terminator]; Err := EOF |}
           [] [] itxt_no_terminator).
  - vm_compute. reflexivity.
  - reflexivity.
  - apply (no_language_end (bytes "key") x00 x00 (bytes "langtext"));
      apply no_null_check; vm_compute; reflexivity.
Defined.

(** ** [ExtractTEXT] *)

Lemma slice_to_first (k rest : list byte) :
  slice_to (k ++ x00 :: rest) (Z.of_nat (length k)) = Return k.
Proof.
  unfold slice_to. rewrite length_app.
  destruct (Z.leb_spec 0 (Z.of_nat (length k))) as [_|]; [|lia].
  destruct (Z.leb_spec (Z.of_nat (length k))
              (Z.of_nat (length k + length (x00 :: rest)))) as [_|]; [|lia].
  cbn [andb]. rewrite Nat2Z.id, take_app_length. reflexivity.
Qed.

Lemma slice_from_first (k rest : list byte) :
  slice_from (k ++ x00 :: rest) (Z.of_nat (length k) + 1) = Return rest.
Proof.
  unfold slice_from. rewrite length_app. cbn [length].
  destruct (Z.leb_spec 0 (Z.of_nat (length k) + 1)) as [_|]; [|lia].
  destruct (Z.leb_spec (Z.of_nat (length k) + 1)
              (Z.of_nat (length k + S (length rest)))) as [_|]; [|lia].
  cbn [andb].
  replace (Z.to_nat (Z.of_nat (length k) + 1)) with (length (k ++ [x00]))
    by (rewrite length_app; cbn; lia).
  replace (k ++ x00 :: rest) with ((k ++ [x00]) ++ rest)
    by (rewrite <- app_assoc; reflexivity).
  rewrite drop_app_length. reflexivity.
Qed.

(** One iteration on a payload with a separator stores the pair. *)
Lemma ExtractTEXT_loop_first (k rest : list byte) (ty : string)
    (cs : list Chunk) (ret : gmap string (list byte)) :
  x00 ∉ k →
  ExtractTEXT_loop ret ({| CType := ty; Data := k ++ x00 :: rest |} :: cs) =
  ExtractTEXT_loop (<[str k := rest]> ret) cs.
Proof.
  intros Hk. cbn [ExtractTEXT_loop Data]. unfold Index0.
  rewrite (IndexByte_first k rest x00 Hk).
  destruct (Z.ltb_spec (Z.of_nat (length k))
              (Z.of_nat (length (k ++ x00 :: rest)))) as [_|Hge].
  2:{ rewrite length_app in Hge. cbn [length] in Hge. lia. }
  rewrite slice_to_first, slice_from_first. reflexivity.
Qed.

(** One iteration on a payload without a separator: [pt] is [-1], the guard
    [pt < sz] holds, and [c.Data[:pt]] is out of bounds. *)
Lemma ExtractTEXT_loop_no_separator (c : Chunk) (cs : list Chunk)
    (ret : gmap string (list byte)) :
  x00 ∉ Data c →
  ExtractTEXT_loop ret (c :: cs) = Panic SliceBoundsOutOfRange.
Proof.
  intros Hc. cbn [ExtractTEXT_loop]. unfold Index0.
  rewrite (IndexByte_not_elem_of (Data c) x00 Hc).
  destruct (Z.ltb_spec (-1) (Z.of_nat (length (Data c)))) as [_|]; [|lia].
  reflexivity.
Qed.

Lemma ExtractTEXT_loop_panics (pre post : list Chunk) (c : Chunk) :
  x00 ∉ Data c →
  ∀ ret, ExtractTEXT_loop ret (pre ++ c :: post) = Panic SliceBoundsOutOfRange.
Proof.
  intros Hc. induction pre as [|[ty d] pre IH]; intros ret; cbn [app].
  - apply ExtractTEXT_loop_no_separator. exact Hc.
  - destruct (split_at_first x00 d) as [Hno|(k & rest & -> & Hk)].
    + apply ExtractTEXT_loop_no_separator. exact Hno.
    + rewrite (ExtractTEXT_loop_first k rest ty _ ret Hk). apply IH.
Qed.

(** C2 fails on the code.  When the reader yields a [tEXt] chunk whose
    payload holds no NUL, [ExtractTEXT] does not skip it: [strings.Index]
    returns [-1], the guard [pt < sz] is true, and slicing [c.Data[:pt]]
    panics, so no map is returned at all. *)
Theorem ExtractTEXT_no_separator_panics
    (data : list byte) (r : Reader) (pre post : list Chunk) (c : Chunk) :
  NewReader data ["tEXt"] = inr r →
  Chunks r = pre ++ c :: post →
  x00 ∉ Data c →
  ExtractTEXT data = Panic SliceBoundsOutOfRange.
Proof.
  intros Hr Hcs Hc. unfold ExtractTEXT. rewrite Hr, Hcs.
  rewrite (ExtractTEXT_loop_panics pre post c Hc). reflexivity.
Qed.

Lemma ExtractTEXT_no_separator_panics_witness :
  ExtractTEXT (png_with text_no_separator) = Panic SliceBoundsOutOfRange.
Proof.
  apply (ExtractTEXT_no_separator_panics (png_with text_no_separator)
           {| Chunks := [text_no_separator]; Err := EOF |}
           [] [] text_no_separator).
  - vm_compute. reflexivity.
  - reflexivity.
  - apply no_null_check. vm_compute. reflexivity.
Defined.

(** ** The chunk reader on well-framed streams *)

Lemma str_bytes (s : string) : str (bytes s) = s.
Proof. apply String.string_of_list_byte_of_string. Qed.

Lemma bytes_str (l : list byte) : bytes (str l) = l.
Proof. apply String.list_byte_of_string_of_list_byte. Qed.

Lemma Uint32_four (b : list byte) (l : list byte) :
  length b = 4%nat → Uint32 (take 4 (b ++ l)) = Return (be_value b).
Proof.
  intros Hb. rewrite take_app_length' by done.
  apply Uint32_be_value. exact Hb.
Qed.

(** One frame: a length field [n], a type, [n] bytes of data, four bytes of
    checksum. *)
Lemma read_chunk_frame (n : Z) (ty data crc rest : list byte) :
  0 <= n < 2 ^ 32 → length ty = 4%nat → Z.of_nat (length data) = n →
  length crc = 4%nat →
  read_chunk (PutUint32 n ++ ty ++ data ++ crc ++ rest) =
  if decide (be_value crc = ChecksumIEEE (ty ++ data))
  then (inr {| CType := str ty; Data := data |}, rest)
  else (inl (ErrReader "checksum mismatch"), []).
Proof.
  intros Hn Hty Hdata Hcrc. unfold read_chunk.
  rewrite decide_False by discriminate.
  rewrite (Uint32_four (PutUint32 n) _ eq_refl), be_value_PutUint32.
  rewrite (uint32_small n Hn).
  assert (Hd4 : drop 4 (PutUint32 n ++ ty ++ data ++ crc ++ rest)
                = ty ++ data ++ crc ++ rest) by reflexivity.
  assert (Hd8 : drop 8 (PutUint32 n ++ ty ++ data ++ crc ++ rest)
                = data ++ crc ++ rest).
  { change 8%nat with (4 + 4)%nat. rewrite <- drop_drop, Hd4.
    apply drop_app_length'. done. }
  assert (Hton : Z.to_nat n = length data) by lia.
  rewrite Hd4, Hd8, Hton.
  rewrite (take_app_length' ty) by done.
  rewrite take_app_length, drop_app_length.
  rewrite (decide_False (P := (length ty < 4)%nat)) by lia.
  rewrite (decide_False (P := (length data < length data)%nat)) by lia.
  rewrite (Uint32_four crc rest Hcrc).
  rewrite <- drop_drop, drop_app_length.
  rewrite (drop_app_length' crc) by done. reflexivity.
Qed.

Lemma read_chunk_encode (c : Chunk) (rest : list byte) :
  length (bytes (CType c)) = 4%nat → Z.of_nat (length (Data c)) < 2 ^ 32 →
  read_chunk (encode_chunk c ++ rest) = (inr c, rest).
Proof.
  intros Hty Hlen. unfold encode_chunk. rewrite <- !app_assoc.
  rewrite read_chunk_frame by (reflexivity || exact Hty || lia).
  rewrite be_value_PutUint32, uint32_small by apply ChecksumIEEE_range.
  rewrite decide_True by reflexivity. rewrite str_bytes.
  destruct c; reflexivity.
Qed.

(** The unfolding of [read_chunks] with fuel left. *)
Lemma read_chunks_fuel (fuel : nat) (included : list string) (buf : list byte) :
  (0 < fuel)%nat →
  read_chunks fuel included buf =
  match read_chunk buf with
  | (inl e, _) => {| Chunks := []; Err := e |}
  | (inr c, rest) =>
      let r := read_chunks (fuel - 1) included rest in
      if decide (CType c ∈ included)
      then {| Chunks := c :: Chunks r; Err := Err r |}
      else r
  end.
Proof.
  intros Hf. destruct fuel as [|fuel]; [lia|].
  cbn [read_chunks]. rewrite Nat.sub_1_r. reflexivity.
Qed.

(** On well-formed chunks the reader returns those of the included types, in
    order, and then the end of the stream. *)
Lemma read_chunks_encoded (included : list string) (cs : list Chunk) :
  Forall framed cs →
  ∀ fuel, (length cs < fuel)%nat →
  read_chunks fuel included (concat (map encode_chunk cs)) =
  {| Chunks := filter (λ c, CType c ∈ included) cs; Err := EOF |}.
Proof.
  induction 1 as [|c cs [Hty Hlen] Hcs IH]; intros fuel Hfuel.
  - rewrite read_chunks_fuel by lia. reflexivity.
  - rewrite read_chunks_fuel by lia. cbn [map concat].
    rewrite read_chunk_encode by (exact Hty || lia). cbn zeta.
    rewrite IH by (cbn [length] in Hfuel; lia).
    rewrite filter_cons. cbn [Chunks Err].
    destruct (decide (CType c ∈ included)); reflexivity.
Qed.

Lemma length_encode_chunk (c : Chunk) : (1 ≤ length (encode_chunk c))%nat.
Proof. unfold encode_chunk. rewrite length_app, length_PutUint32. lia. Qed.

Lemma length_concat_encoded (cs : list Chunk) :
  (length cs ≤ length (concat (map encode_chunk cs)))%nat.
Proof.
  induction cs as [|c cs IH]; [reflexivity|].
  cbn [map concat length]. rewrite length_app.
  pose proof (length_encode_chunk c). lia.
Qed.

Lemma NewReader_encoded (included : list string) (cs : list Chunk) :
  Forall framed cs →
  NewReader (pngMagic ++ concat (map encode_chunk cs)) included =
  inr {| Chunks := filter (λ c, CType c ∈ included) cs; Err := EOF |}.
Proof.
  intros Hcs. unfold NewReader.
  change (take 8 (pngMagic ++ concat (map encode_chunk cs))) with pngMagic.
  rewrite decide_True by reflexivity.
  change (drop 8 (pngMagic ++ concat (map encode_chunk cs)))
    with (concat (map encode_chunk cs)).
  rewrite read_chunks_encoded; [reflexivity|exact Hcs|].
  rewrite length_app. pose proof (length_concat_encoded cs). lia.
Qed.

Lemma wf_chunk_framed (c : Chunk) : wf_chunk c → framed c.
Proof. intros [Hty Hlen]. split; [exact Hty|lia]. Qed.

Lemma filter_other_types (ty : string) (cs : list Chunk) :
  Forall (λ c, CType c ≠ ty) cs → filter (λ c, CType c ∈ [ty]) cs = [].
Proof.
  induction 1 as [|c cs Hc Hcs IH]; [reflexivity|].
  rewrite filter_cons, IH. rewrite decide_False; [reflexivity|].
  rewrite list_elem_of_singleton. exact Hc.
Qed.

(** ** The round trip *)

(** On a valid stream [embed] places the chunk between the first chunk and
    the others. *)
Lemma embed_valid (png : list byte) (first : Chunk) (others : list Chunk)
    (chunk : list byte) :
  valid_png png first others →
  embed png chunk =
  Return (Some (pngMagic ++ encode_chunk first ++ chunk ++
                concat (map encode_chunk others)), None).
Proof.
  intros [-> Hwf]. apply Forall_cons in Hwf as [[Hty Hlen] _].
  cbn [map concat]. unfold encode_chunk at 1.
  set (n := Z.of_nat (length (Data first))) in *.
  set (crc := PutUint32 (ChecksumIEEE (bytes (CType first) ++ Data first))).
  set (tail := concat (map encode_chunk others)).
  rewrite <- !app_assoc.
  rewrite (embed_magic (PutUint32 n) _ chunk n eq_refl).
  2:{ rewrite be_value_PutUint32. apply uint32_small. lia. }
  rewrite (uint32_small (n + 8)) by lia.
  assert (Hlen3 : Z.to_nat (n + 8) =
                  length (bytes (CType first) ++ Data first ++ crc)).
  { rewrite !length_app, Hty. unfold crc. rewrite length_PutUint32. lia. }
  replace (bytes (CType first) ++ Data first ++ crc ++ tail)
    with ((bytes (CType first) ++ Data first ++ crc) ++ tail)
    by (rewrite <- !app_assoc; reflexivity).
  rewrite Hlen3, take_app_length, drop_app_length.
  unfold encode_chunk. fold n. fold crc. rewrite <- !app_assoc. reflexivity.
Qed.

(** With a payload that fits the length field, [buildChunk] is the
    serialization the reader expects. *)
Lemma buildChunk_encode (ct : string) (payload : list byte) :
  isValidChunkType ct = true → Z.of_nat (length payload) < 2 ^ 32 →
  buildChunk ct payload =
  (Some (encode_chunk {| CType := ct; Data := payload |}), None).
Proof.
  intros Hct Hlen. rewrite (buildChunk_valid ct payload Hct).
  rewrite uint32_small by lia. reflexivity.
Qed.

Lemma keyword_no_null (k : string) : valid_keyword k → x00 ∉ bytes k.
Proof.
  intros [_ Hk] Hin. rewrite Forall_forall in Hk.
  specialize (Hk x00 Hin). cbn in Hk. lia.
Qed.

Lemma primitive_to_bytes (v : value) :
  primitive v → ∃ val, to_bytes v = (Some val, None).
Proof.
  destruct v; cbn [primitive to_bytes]; intros H;
    [eexists; reflexivity..|contradiction].
Qed.

Lemma parseITXT_formatted (val : list byte) (k : string) :
  x00 ∉ bytes k →
  parseITXT (formatITXTChunk val k 0 0 "" "") = Return (inr (k, val)).
Proof.
  intros Hk. unfold formatITXTChunk, NULL_SEPERATOR.
  change (byte_of_Z 0) with x00. change (bytes "") with (@nil byte).
  rewrite !app_nil_r, <- !app_assoc. cbn [app].
  unfold parseITXT.
  rewrite (readNullTerminated_first (bytes k) _ Hk).
  cbn [mbind outcome_bind]. rewrite !Discard_cons. unfold NULL_SEPERATOR.
  rewrite !ReadBytes_here.
  cbn [ReadAll]. rewrite str_bytes. reflexivity.
Qed.

(** The stream that [embed] returns, read back with a type filter that only
    the new chunk passes. *)
Lemma NewReader_embedded (ty : string) (payload : list byte)
    (first : Chunk) (others : list Chunk) :
  Forall wf_chunk (first :: others) →
  Forall (λ c, CType c ≠ ty) (first :: others) →
  length (bytes ty) = 4%nat → Z.of_nat (length payload) < 2 ^ 32 →
  NewReader (pngMagic ++ encode_chunk first ++
             encode_chunk {| CType := ty; Data := payload |} ++
             concat (map encode_chunk others)) [ty] =
  inr {| Chunks := [{| CType := ty; Data := payload |}]; Err := EOF |}.
Proof.
  intros Hwf Hty Hlen4 Hlen.
  apply Forall_cons in Hwf as [Hwf1 Hwfs].
  apply Forall_cons in Hty as [Hty1 Htys].
  pose proof (NewReader_encoded [ty]
                (first :: {| CType := ty; Data := payload |} :: others)) as H.
  cbn [map concat] in H. rewrite H; clear H.
  - rewrite !filter_cons, (filter_other_types ty others Htys).
    rewrite decide_False by (rewrite list_elem_of_singleton; exact Hty1).
    rewrite decide_True by (apply list_elem_of_singleton; reflexivity).
    reflexivity.
  - apply Forall_cons. split; [apply wf_chunk_framed; exact Hwf1|].
    apply Forall_cons. split; [split; [exact Hlen4|exact Hlen]|].
    eapply Forall_impl; [exact Hwfs|]. apply wf_chunk_framed.
Qed.

Lemma ExtractTEXT_embedded (val : list byte) (k : string)
    (first : Chunk) (others : list Chunk) :
  Forall wf_chunk (first :: others) →
  Forall (λ c, CType c ≠ "tEXt") (first :: others) →
  x00 ∉ bytes k →
  Z.of_nat (length (formatTEXTChunk val k)) < 2 ^ 32 →
  ExtractTEXT (pngMagic ++ encode_chunk first ++
               encode_chunk {| CType := "tEXt"; Data := formatTEXTChunk val k |} ++
               concat (map encode_chunk others)) =
  Return (Some {[ k := val ]}, None).
Proof.
  intros Hwf Hty Hk Hlen. unfold ExtractTEXT.
  rewrite (NewReader_embedded "tEXt" _ first others Hwf Hty eq_refl Hlen).
  cbn [Chunks Err]. unfold formatTEXTChunk, NULL_SEPERATOR.
  rewrite <- app_assoc. cbn [app].
  rewrite (ExtractTEXT_loop_first (bytes k) val "tEXt" [] ∅ Hk).
  rewrite str_bytes. reflexivity.
Qed.

Lemma ExtractITXT_embedded (val : list byte) (k : string)
    (first : Chunk) (others : list Chunk) :
  Forall wf_chunk (first :: others) →
  Forall (λ c, CType c ≠ "iTXt") (first :: others) →
  x00 ∉ bytes k →
  Z.of_nat (length (formatITXTChunk val k 0 0 "" "")) < 2 ^ 32 →
  ExtractITXT (pngMagic ++ encode_chunk first ++
               encode_chunk {| CType := "iTXt";
                               Data := formatITXTChunk val k 0 0 "" "" |} ++
               concat (map encode_chunk others)) =
  Return (Some {[ k := val ]}, None).
Proof.
  intros Hwf Hty Hk Hlen. unfold ExtractITXT.
  rewrite (NewReader_embedded "iTXt" _ first others Hwf Hty eq_refl Hlen).
  cbn [Chunks Err ExtractITXT_loop Data].
  rewrite (parseITXT_formatted val k Hk). reflexivity.
Qed.

(** C1, amended. On a valid PNG stream without [tEXt] chunks, for a keyword
    of 1 to 79 ASCII bytes without NUL and a string, integer or float value
    whose payload is shorter than [2^32] bytes, [EmbedTEXT] succeeds and
    [ExtractTEXT] of its output succeeds with a map that sends the keyword to
    the bytes of [to_bytes]; likewise for [EmbedITXT] and [ExtractITXT] on a
    stream without [iTXt] chunks. *)
Theorem Extract_Embed_roundtrip
    (png : list byte) (first : Chunk) (others : list Chunk)
    (k : string) (v : value) :
  valid_png png first others → valid_keyword k → primitive v →
  ∃ val : list byte,
    to_bytes v = (Some val, None) ∧
    (Forall (λ c, CType c ≠ "tEXt") (first :: others) →
     Z.of_nat (length (formatTEXTChunk val k)) < 2 ^ 32 →
     ∃ out m, EmbedTEXT png k v = Return (Some out, None) ∧
              ExtractTEXT out = Return (Some m, None) ∧
              m !! k = Some val) ∧
    (Forall (λ c, CType c ≠ "iTXt") (first :: others) →
     Z.of_nat (length (formatITXTChunk val k 0 0 "" "")) < 2 ^ 32 →
     ∃ out m, EmbedITXT png k v = Return (Some out, None) ∧
              ExtractITXT out = Return (Some m, None) ∧
              m !! k = Some val).
Proof.
  intros Hpng Hkey Hprim.
  destruct (primitive_to_bytes v Hprim) as [val Hval].
  pose proof (keyword_no_null k Hkey) as Hk.
  pose proof Hpng as [_ Hwf].
  exists val. split; [exact Hval|]. split.
  - intros Hty Hlen. eexists _, {[ k := val ]}.
    unfold EmbedTEXT. rewrite Hval. cbv beta iota zeta.
    change (bytes_of (Some val)) with val.
    rewrite (buildChunk_encode "tEXt" _ eq_refl Hlen). cbv beta iota zeta.
    change (bytes_of (Some ?c)) with c.
    rewrite (embed_valid png first others _ Hpng).
    split; [reflexivity|]. split.
    + apply ExtractTEXT_embedded; assumption.
    + apply lookup_singleton_eq.
  - intros Hty Hlen. eexists _, {[ k := val ]}.
    unfold EmbedITXT. rewrite Hval. cbv beta iota zeta.
    change (bytes_of (Some val)) with val.
    rewrite (buildChunk_encode "iTXt" _ eq_refl Hlen). cbv beta iota zeta.
    change (bytes_of (Some ?c)) with c.
    rewrite (embed_valid png first others _ Hpng).
    split; [reflexivity|]. split.
    + apply ExtractITXT_embedded; assumption.
    + apply lookup_singleton_eq.
Qed.

Lemma tiny_png_valid : valid_png tiny_png IHDR_1x1 [IEND].
Proof.
  split; [vm_compute; reflexivity|].
  repeat (apply Forall_cons; split; [split; vm_compute; reflexivity|]).
  apply Forall_nil. exact I.
Qed.

Lemma tiny_png_no_text (ty : string) :
  ty ≠ "IHDR" → ty ≠ "IEND" →
  Forall (λ c, CType c ≠ ty) [IHDR_1x1; IEND].
Proof.
  intros H1 H2.
  repeat (apply Forall_cons; split; [cbn; congruence|]).
  apply Forall_nil. exact I.
Qed.

Lemma TEST_KEY_valid : valid_keyword "TEST_KEY".
Proof.
  split; [vm_compute; lia|].
  let l := eval vm_compute in (bytes "TEST_KEY") in
  change (bytes "TEST_KEY") with l.
  repeat (apply Forall_cons; split; [vm_compute; split; reflexivity|]).
  apply Forall_nil. exact I.
Qed.

Lemma Extract_Embed_roundtrip_witness :
  (∃ out m, EmbedTEXT tiny_png "TEST_KEY" (VInt 42) = Return (Some out, None) ∧
            ExtractTEXT out = Return (Some m, None) ∧
            m !! "TEST_KEY" = Some (bytes "42")) ∧
  (∃ out m, EmbedITXT tiny_png "TEST_KEY" (VInt 42) = Return (Some out, None) ∧
            ExtractITXT out = Return (Some m, None) ∧
            m !! "TEST_KEY" = Some (bytes "42")).
Proof.
  destruct (Extract_Embed_roundtrip tiny_png IHDR_1x1 [IEND] "TEST_KEY"
              (VInt 42) tiny_png_valid TEST_KEY_valid I)
    as (val & Hval & HT & HI).
  injection Hval as <-. split.
  - apply HT; [apply tiny_png_no_text; discriminate|vm_compute; reflexivity].
  - apply HI; [apply tiny_png_no_text; discriminate|vm_compute; reflexivity].
Defined.

Lemma k_valid : valid_keyword "k".
Proof.
  split; [vm_compute; lia|].
  apply Forall_cons. split; [vm_compute; split; reflexivity|].
  apply Forall_nil. exact I.
Qed.

(** A string of [n = 2^32] bytes as the value: the payload is longer than the
    length field can say, [buildChunk] stores [uint32(len)] (here [2]), and
    the chunk the reader frames from it fails its checksum. *)
Lemma roundtrip_wraps_at (n : nat) :
  Z.of_nat n = 2 ^ 32 →
  let v := VString (str (replicate n x00)) in
  to_bytes v = (Some (replicate n x00), None) ∧
  ∃ out m e,
    EmbedTEXT tiny_png "k" v = Return (Some out, None) ∧
    ExtractTEXT out = Return (Some m, Some e) ∧ m !! "k" = None.
Proof.
  intros Hn v. change (2 ^ 32) with 4294967296 in Hn.
  assert (Hval : to_bytes v = (Some (replicate n x00), None)).
  { unfold v. cbn [to_bytes]. rewrite bytes_str. reflexivity. }
  split; [exact Hval|].
  set (payload := formatTEXTChunk (replicate n x00) "k").
  set (crc := PutUint32 (ChecksumIEEE (bytes "tEXt" ++ payload))).
  assert (Hlen : uint32 (Z.of_nat (length payload)) = 2).
  { unfold payload, formatTEXTChunk. rewrite !length_app, length_replicate.
    change (length (bytes "k")) with 1%nat. cbn [length].
    unfold uint32. change (2 ^ 32) with 4294967296.
    replace (Z.of_nat (1 + 1 + n)) with (2 + 1 * 4294967296) by lia.
    rewrite Z.mod_add by lia. reflexivity. }
  assert (Hembed : EmbedTEXT tiny_png "k" v =
    Return (Some (pngMagic ++ encode_chunk IHDR_1x1 ++
                  (PutUint32 2 ++ bytes "tEXt" ++ payload ++ crc) ++
                  concat (map encode_chunk [IEND])), None)).
  { unfold EmbedTEXT. rewrite Hval. cbv beta iota zeta.
    change (bytes_of (Some (replicate n x00))) with (replicate n x00).
    fold payload. rewrite (buildChunk_valid "tEXt" payload eq_refl).
    cbv beta iota zeta. change (bytes_of (Some ?c)) with c.
    rewrite Hlen. fold crc. apply embed_valid, tiny_png_valid. }
  eexists _, ∅, (ErrReader "checksum mismatch").
  split; [exact Hembed|]. split; [|apply lookup_empty].
  unfold ExtractTEXT, NewReader.
  change (take 8 (pngMagic ++ ?l)) with pngMagic.
  rewrite decide_True by reflexivity.
  change (drop 8 (pngMagic ++ ?l)) with l.
  rewrite length_app. change (length pngMagic) with 8%nat.
  rewrite read_chunks_fuel by lia.
  rewrite read_chunk_encode by (vm_compute; reflexivity).
  cbv zeta. rewrite decide_False by (rewrite list_elem_of_singleton; discriminate).
  rewrite read_chunks_fuel by lia.
  assert (Hn4 : ∃ n', n = (4 + n')%nat) by (exists (n - 4)%nat; lia).
  destruct Hn4 as [n' Hn'].
  assert (Hframe : (PutUint32 2 ++ bytes "tEXt" ++ payload ++ crc) ++
                   concat (map encode_chunk [IEND]) =
                   PutUint32 2 ++ bytes "tEXt" ++ (bytes "k" ++ [x00]) ++
                   [x00; x00; x00; x00] ++
                   (replicate n' x00 ++ crc ++ concat (map encode_chunk [IEND]))).
  { unfold payload, formatTEXTChunk, NULL_SEPERATOR. rewrite Hn'.
    rewrite replicate_add. cbn [replicate]. rewrite <- !app_assoc. reflexivity. }
  rewrite Hframe.
  rewrite read_chunk_frame by (reflexivity || lia).
  rewrite decide_False by (vm_compute; discriminate).
  reflexivity.
Qed.

(** C1, as stated, fails: with a string of [2^32] bytes as the value, what
    [ExtractTEXT] returns for the output of [EmbedTEXT] does not hold the
    keyword. *)
Lemma roundtrip_length_wraps :
  let v := VString (str (replicate (2 ^ 32)%nat x00)) in
  valid_png tiny_png IHDR_1x1 [IEND] ∧ valid_keyword "k" ∧ primitive v ∧
  Forall (λ c, CType c ≠ "tEXt") [IHDR_1x1; IEND] ∧
  to_bytes v = (Some (replicate (2 ^ 32)%nat x00), None) ∧
  ∃ out m e,
    EmbedTEXT tiny_png "k" v = Return (Some out, None) ∧
    ExtractTEXT out = Return (Some m, Some e) ∧ m !! "k" = None.
Proof.
  intros v. split; [exact tiny_png_valid|]. split; [exact k_valid|].
  split; [exact I|]. split; [apply tiny_png_no_text; discriminate|].
  exact (roundtrip_wraps_at (2 ^ 32)%nat (Nat2Z.inj_pow 2 32)).
Qed.

(** * Further properties of the code *)

(** ** [errIfNotSubStr] decides a prefix *)

(** X1. [errIfNotSubStr(s, sub)] never panics; it reports a too long [sub],
    returns nil exactly for a prefix of [s] (a [sub] found further inside
    [s] is refused), and reports a byte mismatch otherwise. *)
Theorem errIfNotSubStr_outcome (s sub : list byte) :
  ((length s < length sub)%nat →
   errIfNotSubStr s sub = Return (Some ErrSubstringLarger)) ∧
  (sub `prefix_of` s → errIfNotSubStr s sub = Return None) ∧
  ((length sub ≤ length s)%nat → ¬ sub `prefix_of` s →
   errIfNotSubStr s sub = Return (Some ErrByteMismatch)).
Proof.
  split; [|split].
  - intros Hlen. unfold errIfNotSubStr. rewrite decide_True by exact Hlen.
    reflexivity.
  - intros [rest ->]. apply errIfNotSubStr_prefix.
  - apply errIfNotSubStr_not_prefix.
Qed.

(** ** Every outcome of [embed] *)

Lemma Uint32_short (b : list byte) :
  (length b < 4)%nat → Uint32 b = Panic IndexOutOfRange.
Proof.
  intros Hb. destruct b as [|? [|? [|? [|? b]]]]; try reflexivity.
  cbn [length] in Hb. lia.
Qed.

Lemma take8_prefix_magic (data : list byte) :
  (8 ≤ length data)%nat → take 8 data `prefix_of` pngMagic →
  take 8 data = pngMagic.
Proof.
  intros Hlen [rest Heq].
  assert (Hrest : length rest = 0%nat).
  { apply (f_equal length) in Heq.
    rewrite length_app, length_take in Heq. cbn [length pngMagic] in Heq. lia. }
  destruct rest; [|discriminate Hrest].
  rewrite app_nil_r in Heq. symmetry. exact Heq.
Qed.

Lemma embed_magic_long (data chunk : list byte) :
  take 8 data = pngMagic → (12 ≤ length data)%nat →
  embed data chunk =
  Return (Some (take (12 + first_chunk_span data) data ++ chunk ++
                drop (12 + first_chunk_span data) data), None).
Proof.
  intros Hmagic Hlen.
  assert (Hhdr : length (take 4 (drop 8 data)) = 4%nat).
  { rewrite length_take, length_drop. lia. }
  assert (Hsplit : data = pngMagic ++ take 4 (drop 8 data) ++ drop 12 data).
  { rewrite <- Hmagic. change 12%nat with (8 + 4)%nat.
    rewrite <- drop_drop, take_drop, take_drop. reflexivity. }
  unfold first_chunk_span. set (w := Z.to_nat _).
  rewrite Hsplit at 1.
  rewrite (embed_magic _ _ chunk _ Hhdr eq_refl). fold w.
  rewrite <- (take_take_drop data 12 w), <- drop_drop.
  replace (take 12 data) with (take 8 data ++ take 4 (drop 8 data))
    by apply (take_take_drop data 8 4).
  rewrite Hmagic, <- !app_assoc. reflexivity.
Qed.

Lemma embed_short (data chunk : list byte) :
  take 8 data `prefix_of` pngMagic → (length data < 12)%nat →
  embed data chunk = Panic IndexOutOfRange.
Proof.
  intros [rest Hrest] Hlen. rewrite embed_unfold.
  rewrite Hrest at 1. rewrite errIfNotSubStr_prefix.
  cbn [mbind outcome_bind]. rewrite Uint32_short; [reflexivity|].
  rewrite length_take, length_drop. lia.
Qed.

(** X2. The three outcomes of [embed], by the input alone: a stream whose
    first bytes are no prefix of the signature gets the byte-mismatch error
    and a nil slice; a stream of fewer than 12 bytes that passes the check
    makes [binary.BigEndian.Uint32] panic; every stream of 12 bytes or more
    that starts with the signature is spliced, the chunk going in after the
    first [12 + uint32(sz + 8)] bytes (at the end of a shorter stream). *)
Theorem embed_outcome (data chunk : list byte) :
  (¬ take 8 data `prefix_of` pngMagic →
   embed data chunk = Return (None, Some ErrByteMismatch)) ∧
  (take 8 data `prefix_of` pngMagic → (length data < 12)%nat →
   embed data chunk = Panic IndexOutOfRange) ∧
  (take 8 data `prefix_of` pngMagic → (12 ≤ length data)%nat →
   embed data chunk =
   Return (Some (take (12 + first_chunk_span data) data ++ chunk ++
                 drop (12 + first_chunk_span data) data), None)).
Proof.
  split; [apply embed_rejects_non_prefix|]. split; [apply embed_short|].
  intros Hp Hlen. apply embed_magic_long; [|exact Hlen].
  apply take8_prefix_magic; [lia|exact Hp].
Qed.

(** X3. Whatever [embed] returns, it is all or nothing: either an output
    and a nil error, the output being the input with the chunk inserted
    (its length is the sum of both lengths), or a nil slice and the
    byte-mismatch error.  The error ["substring larger than parent"] never
    comes out of [embed]. *)
Theorem embed_all_or_nothing
    (data chunk : list byte) (o : option (list byte)) (e : option error) :
  embed data chunk = Return (o, e) →
  (e = None ∧ ∃ pos, o = Some (take pos data ++ chunk ++ drop pos data) ∧
                     length (take pos data ++ chunk ++ drop pos data)
                     = (length data + length chunk)%nat) ∨
  (o = None ∧ e = Some ErrByteMismatch).
Proof.
  intros Hemb.
  destruct (decide (take 8 data `prefix_of` pngMagic)) as [Hp|Hnp].
  - destruct (decide (length data < 12)%nat) as [Hlt|Hge].
    + rewrite (embed_short data chunk Hp Hlt) in Hemb. discriminate Hemb.
    + assert (Hmagic : take 8 data = pngMagic)
        by (apply take8_prefix_magic; [lia|exact Hp]).
      rewrite (embed_magic_long data chunk Hmagic ltac:(lia)) in Hemb.
      injection Hemb as <- <-.
      left. split; [reflexivity|]. eexists. split; [reflexivity|].
      rewrite !length_app, length_take, length_drop. lia.
  - rewrite (embed_rejects_non_prefix data chunk Hnp) in Hemb.
    injection Hemb as <- <-. right. split; reflexivity.
Qed.

Lemma embed_all_or_nothing_witness :
  (@None error = None ∧
   ∃ pos, Some (take 33 tiny_png ++ [x2a] ++ drop 33 tiny_png)
          = Some (take pos tiny_png ++ [x2a] ++ drop pos tiny_png) ∧
          length (take pos tiny_png ++ [x2a] ++ drop pos tiny_png)
          = (length tiny_png + length [x2a])%nat) ∨
  (Some (take 33 tiny_png ++ [x2a] ++ drop 33 tiny_png) = None ∧
   @None error = Some ErrByteMismatch).
Proof.
  apply (embed_all_or_nothing tiny_png [x2a]).
  vm_compute. reflexivity.
Defined.

(** ** How much [EmbedTEXT] and [EmbedITXT] add *)

Lemma length_bytes_tEXt : length (bytes "tEXt") = 4%nat.
Proof. reflexivity. Qed.

(** X4. On every stream of 12 bytes or more that starts with the signature
    (nothing else is checked) and every value that [to_bytes] encodes,
    [EmbedTEXT] succeeds and adds exactly [13 + len(k) + len(val)] bytes,
    [EmbedITXT] exactly [17 + len(k) + len(val)]. *)
Theorem Embed_adds_one_chunk
    (data : list byte) (k : string) (v : value) (val : option (list byte)) :
  take 8 data = pngMagic → (12 ≤ length data)%nat →
  to_bytes v = (val, None) →
  (∃ out, EmbedTEXT data k v = Return (Some out, None) ∧
          length out =
          (length data + 13 + length (bytes k) + length (bytes_of val))%nat) ∧
  (∃ out, EmbedITXT data k v = Return (Some out, None) ∧
          length out =
          (length data + 17 + length (bytes k) + length (bytes_of val))%nat).
Proof.
  intros Hmagic Hlen Hv. unfold EmbedTEXT, EmbedITXT. rewrite Hv.
  cbv beta iota zeta. split.
  - rewrite buildChunk_valid by reflexivity. cbv beta iota zeta.
    change (bytes_of (Some ?c)) with c.
    rewrite (embed_magic_long data _ Hmagic Hlen).
    eexists. split; [reflexivity|].
    unfold formatTEXTChunk.
    rewrite !length_app, length_take, length_drop, !length_PutUint32.
    cbn [length]. rewrite length_bytes_tEXt. lia.
  - rewrite buildChunk_valid by reflexivity. cbv beta iota zeta.
    change (bytes_of (Some ?c)) with c.
    rewrite (embed_magic_long data _ Hmagic Hlen).
    eexists. split; [reflexivity|].
    unfold formatITXTChunk.
    rewrite !length_app, length_take, length_drop, !length_PutUint32.
    cbn [length]. change (length (bytes "iTXt")) with 4%nat.
    change (length (bytes "")) with 0%nat. lia.
Qed.

Lemma Embed_adds_one_chunk_witness :
  (∃ out, EmbedTEXT tiny_png "TEST_KEY" (VInt 42) = Return (Some out, None) ∧
          length out =
          (length tiny_png + 13 + length (bytes "TEST_KEY")
           + length (bytes_of (Some (bytes "42"))))%nat) ∧
  (∃ out, EmbedITXT tiny_png "TEST_KEY" (VInt 42) = Return (Some out, None) ∧
          length out =
          (length tiny_png + 17 + length (bytes "TEST_KEY")
           + length (bytes_of (Some (bytes "42"))))%nat).
Proof.
  apply (Embed_adds_one_chunk tiny_png "TEST_KEY" (VInt 42)).
  - vm_compute. reflexivity.
  - vm_compute. lia.
  - reflexivity.
Defined.

(** ** [to_bytes] loses no integer *)

Lemma decimal_text_unique (i j : Z) (s : list byte) :
  decimal_text i s → decimal_text j s → i = j.
Proof.
  intros (di & Hi & (_ & Hdi & _) & Hvi) (dj & Hj & (_ & Hdj & _) & Hvj).
  assert (Hminus : ¬ is_digit x2d) by (unfold is_digit; vm_compute; intuition congruence).
  rewrite Hi in Hj.
  destruct (Z.ltb_spec i 0) as [Hni|Hpi]; destruct (Z.ltb_spec j 0) as [Hnj|Hpj];
    cbn [app] in Hj.
  - injection Hj as ->. lia.
  - subst dj. apply Forall_cons in Hdj as [Hd _]. contradiction.
  - subst di. apply Forall_cons in Hdi as [Hd _]. contradiction.
  - subst dj. lia.
Qed.

(** X5. The text [to_bytes] produces for an [int] determines the integer:
    two integers with the same encoding are equal. *)
Theorem to_bytes_int_injective (i j : Z) :
  to_bytes (VInt i) = to_bytes (VInt j) → i = j.
Proof.
  cbn [to_bytes]. intros Heq. injection Heq as Heq.
  apply (decimal_text_unique i j (Sprintf_d i)).
  - apply Sprintf_d_decimal.
  - rewrite Heq. apply Sprintf_d_decimal.
Qed.

Lemma to_bytes_int_injective_witness : (-42) = (-42).
Proof. apply (to_bytes_int_injective (-42) (-42)). reflexivity. Defined.

(** ** [ExtractITXT]: complete payloads, and all or nothing *)

Lemma parseITXT_framed (k lang tk text : list byte) (flag method : byte) :
  x00 ∉ k → x00 ∉ lang → x00 ∉ tk →
  parseITXT (k ++ x00 :: flag :: method :: lang ++ x00 :: tk ++ x00 :: text)
  = Return (inr (str k, text)).
Proof.
  intros Hk Hl Ht. unfold parseITXT.
  rewrite (readNullTerminated_first k _ Hk).
  cbn [mbind outcome_bind]. rewrite !Discard_cons. unfold NULL_SEPERATOR.
  rewrite (ReadBytes_first lang _ x00 Hl).
  rewrite (ReadBytes_first tk _ x00 Ht). reflexivity.
Qed.

Lemma parseITXT_fields (d k text : list byte) :
  itxt_fields d k text → parseITXT d = Return (inr (str k, text)).
Proof.
  intros (flag & method & lang & tk & -> & Hk & Hl & Ht).
  apply parseITXT_framed; assumption.
Qed.

(** Every payload is either cut short or complete. *)
Lemma itxt_truncated_or_fields (d : list byte) :
  itxt_truncated d ∨ ∃ k text, itxt_fields d k text.
Proof.
  destruct (split_at_first x00 d) as [Hno|(k & r1 & -> & Hk)].
  { left. apply no_keyword_end. exact Hno. }
  destruct r1 as [|flag [|method r2]].
  { left. apply no_compression_flag. exact Hk. }
  { left. apply no_compression_method. exact Hk. }
  destruct (split_at_first x00 r2) as [Hno|(lang & r3 & -> & Hl)].
  { left. apply no_language_end; assumption. }
  destruct (split_at_first x00 r3) as [Hno|(tk & text & -> & Ht)].
  { left. apply no_translated_end; assumption. }
  right. exists k, text, flag, method, lang, tk. repeat split; assumption.
Qed.

Lemma ExtractITXT_loop_complete (cs : list Chunk) :
  Forall (λ c, ∃ k text, itxt_fields (Data c) k text) cs →
  ∀ ret, ∃ m, ExtractITXT_loop ret cs = Return (inr m).
Proof.
  induction 1 as [|c cs (k & text & Hc) Hcs IH]; intros ret.
  - exists ret. reflexivity.
  - cbn [ExtractITXT_loop]. rewrite (parseITXT_fields _ k text Hc).
    cbn [mbind outcome_bind]. apply IH.
Qed.

Lemma chunks_truncated_or_complete (cs : list Chunk) :
  Exists (λ c, itxt_truncated (Data c)) cs ∨
  Forall (λ c, ∃ k text, itxt_fields (Data c) k text) cs.
Proof.
  induction cs as [|c cs IH]; [right; constructor|].
  destruct (itxt_truncated_or_fields (Data c)) as [Ht|Hf].
  - left. apply Exists_cons_hd. exact Ht.
  - destruct IH as [He|Ha].
    + left. apply Exists_cons_tl. exact He.
    + right. constructor; assumption.
Qed.

(** X6. [ExtractITXT] never panics: on every input it returns, either a nil
    map with an error or a map. *)
Theorem ExtractITXT_never_panics (data : list byte) :
  (∃ e, ExtractITXT data = Return (None, Some e)) ∨
  (∃ m e, ExtractITXT data = Return (Some m, e)).
Proof.
  unfold ExtractITXT. destruct (NewReader data ["iTXt"]) as [e|r].
  - left. exists e. reflexivity.
  - destruct (chunks_truncated_or_complete (Chunks r)) as [He|Ha].
    + apply Exists_exists in He as (c & Hin & Ht).
      apply list_elem_of_split in Hin as (pre & post & ->).
      destruct (ExtractITXT_loop_truncated pre post c Ht ∅) as [e ->].
      left. exists e. reflexivity.
    + destruct (ExtractITXT_loop_complete (Chunks r) Ha ∅) as [m ->].
      right. exists m, (clear_EOF (Err r)). reflexivity.
Qed.

(** X7. [ExtractITXT] is all or nothing over the chunks the reader yields:
    it returns a nil map exactly when one of them is cut short; when all are
    complete it returns a map together with the reader's final error, nil
    at the end of the stream. *)
Theorem ExtractITXT_nil_iff_truncated (data : list byte) (r : Reader) :
  NewReader data ["iTXt"] = inr r →
  ((∃ e, ExtractITXT data = Return (None, Some e)) ↔
   Exists (λ c, itxt_truncated (Data c)) (Chunks r)) ∧
  (Forall (λ c, ∃ k text, itxt_fields (Data c) k text) (Chunks r) →
   ∃ m, ExtractITXT data = Return (Some m, clear_EOF (Err r))).
Proof.
  intros Hr. unfold ExtractITXT. rewrite Hr.
  assert (Hall : Forall (λ c, ∃ k text, itxt_fields (Data c) k text) (Chunks r) →
                 ∃ m, (res ← ExtractITXT_loop ∅ (Chunks r);
                       match res with
                       | inl e => Return (None, Some e)
                       | inr ret => Return (Some ret, clear_EOF (Err r))
                       end) = Return (Some m, clear_EOF (Err r))).
  { intros Ha. destruct (ExtractITXT_loop_complete (Chunks r) Ha ∅) as [m ->].
    exists m. reflexivity. }
  split; [|exact Hall]. split.
  - intros [e He].
    destruct (chunks_truncated_or_complete (Chunks r)) as [Hex|Ha]; [exact Hex|].
    destruct (Hall Ha) as [m Hm]. rewrite Hm in He. discriminate He.
  - intros Hex. apply Exists_exists in Hex as (c & Hin & Ht).
    apply list_elem_of_split in Hin as (pre & post & ->).
    destruct (ExtractITXT_loop_truncated pre post c Ht ∅) as [e ->].
    exists e. reflexivity.
Qed.

Lemma ExtractITXT_nil_iff_truncated_witness :
  ((∃ e, ExtractITXT (png_with itxt_no_terminator) = Return (None, Some e)) ↔
   Exists (λ c, itxt_truncated (Data c)) [itxt_no_terminator]) ∧
  (Forall (λ c, ∃ k text, itxt_fields (Data c) k text) [itxt_no_terminator] →
   ∃ m, ExtractITXT (png_with itxt_no_terminator)
        = Return (Some m, clear_EOF EOF)).
Proof.
  apply (ExtractITXT_nil_iff_truncated (png_with itxt_no_terminator)
           {| Chunks := [itxt_no_terminator]; Err := EOF |}).
  vm_compute. reflexivity.
Defined.

Lemma ExtractITXT_loop_fields (c : Chunk) (k text : list byte)
    (cs : list Chunk) (ret : gmap string (list byte)) :
  itxt_fields (Data c) k text →
  ExtractITXT_loop ret (c :: cs) = ExtractITXT_loop (<[str k := text]> ret) cs.
Proof.
  intros Hc. cbn [ExtractITXT_loop]. rewrite (parseITXT_fields _ k text Hc).
  reflexivity.
Qed.

Lemma ExtractITXT_loop_last (pre : list Chunk) (c : Chunk) (k text : list byte) :
  Forall (λ c', ∃ k' text', itxt_fields (Data c') k' text') pre →
  itxt_fields (Data c) k text →
  ∀ ret, ∃ m, ExtractITXT_loop ret (pre ++ [c]) = Return (inr m) ∧
              m !! str k = Some text.
Proof.
  intros Hpre Hc. induction Hpre as [|c' pre (k' & text' & Hc') _ IH];
    intros ret; cbn [app].
  - rewrite (ExtractITXT_loop_fields c k text [] ret Hc).
    eexists. split; [reflexivity|]. apply lookup_insert_eq.
  - rewrite (ExtractITXT_loop_fields c' k' text' _ ret Hc'). apply IH.
Qed.

(** X8. [ExtractITXT] reads the keyword and the text and nothing else: for
    a complete payload the compression flag, the compression method, the
    language tag and the translated keyword do not influence the result,
    the text is stored as it stands (also under a compression flag of 1),
    and the last [iTXt] chunk of a stream decides the value of its
    keyword. *)
Theorem ExtractITXT_last_chunk_wins
    (data : list byte) (r : Reader) (pre : list Chunk) (c : Chunk)
    (k text : list byte) :
  NewReader data ["iTXt"] = inr r →
  Chunks r = pre ++ [c] →
  Forall (λ c', ∃ k' text', itxt_fields (Data c') k' text') pre →
  itxt_fields (Data c) k text →
  ∃ m, ExtractITXT data = Return (Some m, clear_EOF (Err r)) ∧
       m !! str k = Some text.
Proof.
  intros Hr Hcs Hpre Hc. unfold ExtractITXT. rewrite Hr, Hcs.
  destruct (ExtractITXT_loop_last pre c k text Hpre Hc ∅) as (m & -> & Hm).
  exists m. split; [reflexivity|exact Hm].
Qed.

Lemma ExtractITXT_last_chunk_wins_witness :
  ∃ m, ExtractITXT (png_with2 itxt_flagged itxt_plain)
       = Return (Some m, clear_EOF EOF) ∧
       m !! str (bytes "k") = Some (bytes "new").
Proof.
  apply (ExtractITXT_last_chunk_wins (png_with2 itxt_flagged itxt_plain)
           {| Chunks := [itxt_flagged; itxt_plain]; Err := EOF |}
           [itxt_flagged] itxt_plain (bytes "k") (bytes "new")).
  - vm_compute. reflexivity.
  - reflexivity.
  - apply Forall_cons. split; [|apply Forall_nil; exact I].
    exists (bytes "k"), (bytes "old"), x01, x00, (bytes "en"), (bytes "clef").
    split; [reflexivity|].
    repeat split; apply no_null_check; vm_compute; reflexivity.
  - exists x00, x00, [], [].
    split; [reflexivity|].
    repeat split; apply no_null_check; vm_compute; reflexivity.
Defined.

(** X9. What [formatITXTChunk] lays out, the loop of [ExtractITXT] reads
    back, for every compression flag and method and every language tag and
    translated keyword without NUL: the iteration stores the text under the
    keyword. *)
Theorem formatITXTChunk_read_back
    (text : list byte) (k lang tk : string) (flag method : Z) (ty : string)
    (cs : list Chunk) (ret : gmap string (list byte)) :
  x00 ∉ bytes k → x00 ∉ bytes lang → x00 ∉ bytes tk →
  ExtractITXT_loop ret
    ({| CType := ty; Data := formatITXTChunk text k flag method lang tk |} :: cs)
  = ExtractITXT_loop (<[k := text]> ret) cs.
Proof.
  intros Hk Hl Ht.
  rewrite (ExtractITXT_loop_fields _ (bytes k) text cs ret).
  - rewrite str_bytes. reflexivity.
  - exists (byte_of_Z flag), (byte_of_Z method), (bytes lang), (bytes tk).
    split; [|repeat split; assumption].
    cbn [Data]. unfold formatITXTChunk, NULL_SEPERATOR.
    rewrite <- !app_assoc. reflexivity.
Qed.

Lemma formatITXTChunk_read_back_witness :
  ExtractITXT_loop ∅
    [{| CType := "iTXt";
        Data := formatITXTChunk (bytes "bonjour") "greeting" 1 0 "fr" "salut" |}]
  = ExtractITXT_loop (<["greeting" := bytes "bonjour"]> ∅) [].
Proof.
  apply (formatITXTChunk_read_back (bytes "bonjour") "greeting" "fr" "salut"
           1 0 "iTXt" [] ∅);
    apply no_null_check; vm_compute; reflexivity.
Defined.

(** ** [ExtractTEXT]: the map it builds *)

Lemma has_null_check (l : list byte) : bool_decide (x00 ∈ l) = true → x00 ∈ l.
Proof. intros H. apply bool_decide_eq_true in H. exact H. Qed.

Lemma text_key_first (ty : string) (k rest : list byte) :
  x00 ∉ k → text_key {| CType := ty; Data := k ++ x00 :: rest |} = str k.
Proof.
  intros Hk. unfold text_key, Index0. cbn [Data].
  rewrite (IndexByte_first k rest x00 Hk), Nat2Z.id, take_app_length.
  reflexivity.
Qed.

Lemma text_value_first (ty : string) (k rest : list byte) :
  x00 ∉ k → text_value {| CType := ty; Data := k ++ x00 :: rest |} = rest.
Proof.
  intros Hk. unfold text_value, Index0. cbn [Data].
  rewrite (IndexByte_first k rest x00 Hk).
  replace (Z.to_nat (Z.of_nat (length k) + 1)) with (length (k ++ [x00]))
    by (rewrite length_app; cbn; lia).
  replace (k ++ x00 :: rest) with ((k ++ [x00]) ++ rest)
    by (rewrite <- app_assoc; reflexivity).
  apply drop_app_length.
Qed.

Lemma ExtractTEXT_loop_text_map (cs : list Chunk) :
  Forall (λ c, x00 ∈ Data c) cs →
  ∀ ret, ExtractTEXT_loop ret cs = Return (text_map ret cs).
Proof.
  induction 1 as [|[ty d] cs Hc Hcs IH]; intros ret; [reflexivity|].
  cbn [Data] in Hc.
  destruct (split_at_first x00 d) as [Hno|(k & rest & -> & Hk)];
    [contradiction|].
  rewrite (ExtractTEXT_loop_first k rest ty cs ret Hk), IH.
  unfold text_map. cbn [fold_left].
  rewrite (text_key_first ty k rest Hk), (text_value_first ty k rest Hk).
  reflexivity.
Qed.

Lemma text_map_other_keys (cs : list Chunk) (k : string) :
  Forall (λ c, text_key c ≠ k) cs →
  ∀ ret, text_map ret cs !! k = ret !! k.
Proof.
  induction 1 as [|c cs Hc Hcs IH]; intros ret; [reflexivity|].
  unfold text_map in *. cbn [fold_left]. rewrite IH.
  apply lookup_insert_ne. exact Hc.
Qed.

Lemma text_map_app (pre post : list Chunk) (ret : gmap string (list byte)) :
  text_map ret (pre ++ post) = text_map (text_map ret pre) post.
Proof. unfold text_map. apply fold_left_app. Qed.

(** X10. When every [tEXt] payload holds a NUL, [ExtractTEXT] does not
    panic and returns the map of the pairs in stream order: a keyword is
    sent to the text of the last chunk that carries it (later chunks
    overwrite earlier ones), and a string that is the keyword of no chunk
    is not in the map. *)
Theorem ExtractTEXT_last_writer_wins
    (data : list byte) (r : Reader) (pre post : list Chunk) (c : Chunk) :
  NewReader data ["tEXt"] = inr r →
  Forall (λ c', x00 ∈ Data c') (Chunks r) →
  Chunks r = pre ++ c :: post →
  Forall (λ c', text_key c' ≠ text_key c) post →
  ∃ m, ExtractTEXT data = Return (Some m, clear_EOF (Err r)) ∧
       m !! text_key c = Some (text_value c) ∧
       ∀ k, Forall (λ c', text_key c' ≠ k) (Chunks r) → m !! k = None.
Proof.
  intros Hr Hsep Hcs Hpost. unfold ExtractTEXT. rewrite Hr.
  rewrite (ExtractTEXT_loop_text_map (Chunks r) Hsep ∅).
  eexists. split; [reflexivity|]. split.
  - rewrite Hcs.
    change (pre ++ c :: post) with (pre ++ [c] ++ post).
    rewrite !text_map_app, (text_map_other_keys post _ Hpost).
    unfold text_map at 1. cbn [fold_left]. apply lookup_insert_eq.
  - intros k Hk. rewrite (text_map_other_keys _ k Hk). apply lookup_empty.
Qed.

Lemma ExtractTEXT_last_writer_wins_witness :
  ∃ m, ExtractTEXT (png_with2 text_old text_new)
       = Return (Some m, clear_EOF EOF) ∧
       m !! text_key text_new = Some (text_value text_new) ∧
       ∀ k, Forall (λ c', text_key c' ≠ k) [text_old; text_new] → m !! k = None.
Proof.
  apply (ExtractTEXT_last_writer_wins (png_with2 text_old text_new)
           {| Chunks := [text_old; text_new]; Err := EOF |}
           [text_old] [] text_new).
  - vm_compute. reflexivity.
  - cbn [Chunks].
    repeat (apply Forall_cons; split;
            [apply has_null_check; vm_compute; reflexivity|]).
    apply Forall_nil. exact I.
  - reflexivity.
  - apply Forall_nil. exact I.
Defined.



(** ** Embedding and extracting, composed *)

Lemma EmbedTEXT_on_valid (png : list byte) (first : Chunk) (others : list Chunk)
    (k : string) (v : value) (val : list byte) :
  valid_png png first others → to_bytes v = (Some val, None) →
  Z.of_nat (length (formatTEXTChunk val k)) < 2 ^ 32 →
  EmbedTEXT png k v =
  Return (Some (pngMagic ++ encode_chunk first ++
                encode_chunk {| CType := "tEXt"; Data := formatTEXTChunk val k |} ++
                concat (map encode_chunk others)), None).
Proof.
  intros Hpng Hval Hlen. unfold EmbedTEXT. rewrite Hval. cbv beta iota zeta.
  change (bytes_of (Some val)) with val.
  rewrite (buildChunk_encode "tEXt" _ eq_refl Hlen). cbv beta iota zeta.
  change (bytes_of (Some ?c)) with c.
  apply embed_valid. exact Hpng.
Qed.

Lemma EmbedITXT_on_valid (png : list byte) (first : Chunk) (others : list Chunk)
    (k : string) (v : value) (val : list byte) :
  valid_png png first others → to_bytes v = (Some val, None) →
  Z.of_nat (length (formatITXTChunk val k 0 0 "" "")) < 2 ^ 32 →
  EmbedITXT png k v =
  Return (Some (pngMagic ++ encode_chunk first ++
                encode_chunk {| CType := "iTXt";
                                Data := formatITXTChunk val k 0 0 "" "" |} ++
                concat (map encode_chunk others)), None).
Proof.
  intros Hpng Hval Hlen. unfold EmbedITXT. rewrite Hval. cbv beta iota zeta.
  change (bytes_of (Some val)) with val.
  rewrite (buildChunk_encode "iTXt" _ eq_refl Hlen). cbv beta iota zeta.
  change (bytes_of (Some ?c)) with c.
  apply embed_valid. exact Hpng.
Qed.

(** X12. The round trip needs less than the format asks for: for every
    keyword without NUL (the empty keyword and keywords longer than 79 bytes
    included, neither is checked) and every value that [to_bytes] encodes
    (the JSON fallback included), extracting from the embedded stream gives
    the map with that one pair and a nil error. *)
Theorem roundtrip_unchecked_keyword
    (png : list byte) (first : Chunk) (others : list Chunk)
    (k : string) (v : value) (val : list byte) :
  valid_png png first others → x00 ∉ bytes k →
  to_bytes v = (Some val, None) →
  (Forall (λ c, CType c ≠ "tEXt") (first :: others) →
   Z.of_nat (length (formatTEXTChunk val k)) < 2 ^ 32 →
   ∃ out, EmbedTEXT png k v = Return (Some out, None) ∧
          ExtractTEXT out = Return (Some {[ k := val ]}, None)) ∧
  (Forall (λ c, CType c ≠ "iTXt") (first :: others) →
   Z.of_nat (length (formatITXTChunk val k 0 0 "" "")) < 2 ^ 32 →
   ∃ out, EmbedITXT png k v = Return (Some out, None) ∧
          ExtractITXT out = Return (Some {[ k := val ]}, None)).
Proof.
  intros Hpng Hk Hval. pose proof Hpng as [_ Hwf]. split.
  - intros Hty Hlen. eexists.
    split; [apply (EmbedTEXT_on_valid png first others k v val); assumption|].
    apply ExtractTEXT_embedded; assumption.
  - intros Hty Hlen. eexists.
    split; [apply (EmbedITXT_on_valid png first others k v val); assumption|].
    apply ExtractITXT_embedded; assumption.
Qed.

Lemma roundtrip_unchecked_keyword_witness :
  (∃ out, EmbedTEXT tiny_png "" (VOther (Some (bytes "[1,2]"), None))
          = Return (Some out, None) ∧
          ExtractTEXT out = Return (Some {[ "" := bytes "[1,2]" ]}, None)) ∧
  (∃ out, EmbedITXT tiny_png "" (VOther (Some (bytes "[1,2]"), None))
          = Return (Some out, None) ∧
          ExtractITXT out = Return (Some {[ "" := bytes "[1,2]" ]}, None)).
Proof.
  destruct (roundtrip_unchecked_keyword tiny_png IHDR_1x1 [IEND] ""
              (VOther (Some (bytes "[1,2]"), None)) (bytes "[1,2]")
              tiny_png_valid (not_elem_of_nil x00) eq_refl) as [HT HI].
  split.
  - apply HT; [apply tiny_png_no_text; discriminate|vm_compute; reflexivity].
  - apply HI; [apply tiny_png_no_text; discriminate|vm_compute; reflexivity].
Defined.




Lemma valid_png_insert (png : list byte) (first c : Chunk) (others : list Chunk) :
  valid_png png first others → wf_chunk c →
  valid_png (pngMagic ++ encode_chunk first ++ encode_chunk c ++
             concat (map encode_chunk others)) first (c :: others).
Proof.
  intros [_ Hwf] Hc. apply Forall_cons in Hwf as [Hfirst Hothers].
  split; [reflexivity|].
  apply Forall_cons. split; [exact Hfirst|].
  apply Forall_cons. split; [exact Hc|exact Hothers].
Qed.

(** X14. [EmbedTEXT] and [EmbedITXT] keep a valid stream valid: with a
    payload shorter than [2^31] bytes the output is the signature followed
    by the same first chunk, the new well-formed chunk, and the other chunks
    unchanged and in order. *)
Theorem Embed_preserves_validity
    (png : list byte) (first : Chunk) (others : list Chunk)
    (k : string) (v : value) (val : list byte) :
  valid_png png first others → to_bytes v = (Some val, None) →
  (Z.of_nat (length (formatTEXTChunk val k)) < 2 ^ 31 →
   ∃ out, EmbedTEXT png k v = Return (Some out, None) ∧
          valid_png out first
            ({| CType := "tEXt"; Data := formatTEXTChunk val k |} :: others)) ∧
  (Z.of_nat (length (formatITXTChunk val k 0 0 "" "")) < 2 ^ 31 →
   ∃ out, EmbedITXT png k v = Return (Some out, None) ∧
          valid_png out first
            ({| CType := "iTXt"; Data := formatITXTChunk val k 0 0 "" "" |}
             :: others)).
Proof.
  intros Hpng Hval. split; intros Hlen; eexists.
  - split; [apply (EmbedTEXT_on_valid png first others k v val);
            [assumption..|lia]|].
    apply (valid_png_insert png); [exact Hpng|]. split; [reflexivity|exact Hlen].
  - split; [apply (EmbedITXT_on_valid png first others k v val);
            [assumption..|lia]|].
    apply (valid_png_insert png); [exact Hpng|]. split; [reflexivity|exact Hlen].
Qed.

Lemma Embed_preserves_validity_witness :
  (Z.of_nat (length (formatTEXTChunk (bytes "42") "TEST_KEY")) < 2 ^ 31 →
   ∃ out, EmbedTEXT tiny_png "TEST_KEY" (VInt 42) = Return (Some out, None) ∧
          valid_png out IHDR_1x1
            [{| CType := "tEXt"; Data := formatTEXTChunk (bytes "42") "TEST_KEY" |};
             IEND]) ∧
  (Z.of_nat (length (formatITXTChunk (bytes "42") "TEST_KEY" 0 0 "" "")) < 2 ^ 31 →
   ∃ out, EmbedITXT tiny_png "TEST_KEY" (VInt 42) = Return (Some out, None) ∧
          valid_png out IHDR_1x1
            [{| CType := "iTXt";
                Data := formatITXTChunk (bytes "42") "TEST_KEY" 0 0 "" "" |};
             IEND]).
Proof.
  apply (Embed_preserves_validity tiny_png IHDR_1x1 [IEND] "TEST_KEY"
           (VInt 42) (bytes "42")).
  - exact tiny_png_valid.
  - reflexivity.
Defined.





(** ** The remaining edges *)

(** X17. [readNullTerminated] never panics: without a NUL in what is left
    it returns the empty string and [io.EOF] and leaves the reader
    exhausted; otherwise it returns the bytes before the first NUL with a
    nil error and leaves the reader just behind that NUL. *)
Theorem readNullTerminated_outcome (br : list byte) :
  ((x00 ∉ br) ∧ readNullTerminated br = (Return ("", Some EOF), [])) ∨
  (∃ k rest, br = k ++ x00 :: rest ∧ (x00 ∉ k) ∧
             readNullTerminated br = (Return (str k, None), rest)).
Proof.
  destruct (split_at_first x00 br) as [Hno|(k & rest & -> & Hk)].
  - left. split; [exact Hno|]. apply readNullTerminated_not_elem_of. exact Hno.
  - right. exists k, rest. split; [reflexivity|]. split; [exact Hk|].
    apply readNullTerminated_first. exact Hk.
Qed.

(** X18. The entry points do not turn a truncated stream into an error: on
    a stream of fewer than 12 bytes whose first bytes are a prefix of the
    signature (the empty stream, the bare signature), [EmbedTEXT] and
    [EmbedITXT] panic for every key and every value that [to_bytes]
    encodes. *)
Theorem Embed_panics_on_short_stream
    (data : list byte) (k : string) (v : value) (val : option (list byte)) :
  take 8 data `prefix_of` pngMagic → (length data < 12)%nat →
  to_bytes v = (val, None) →
  EmbedTEXT data k v = Panic IndexOutOfRange ∧
  EmbedITXT data k v = Panic IndexOutOfRange.
Proof.
  intros Hp Hlen Hv. unfold EmbedTEXT, EmbedITXT. rewrite Hv.
  cbv beta iota zeta. split.
  - destruct (buildChunk "tEXt" _) as [pngChunk ?].
    apply embed_short; assumption.
  - destruct (buildChunk "iTXt" _) as [pngChunk ?].
    apply embed_short; assumption.
Qed.

Lemma Embed_panics_on_short_stream_witness :
  EmbedTEXT pngMagic "k" (VString "v") = Panic IndexOutOfRange ∧
  EmbedITXT pngMagic "k" (VString "v") = Panic IndexOutOfRange.
Proof.
  apply (Embed_panics_on_short_stream pngMagic "k" (VString "v")
           (Some (bytes "v"))).
  - exists []. reflexivity.
  - vm_compute. lia.
  - reflexivity.
Defined.

(** X19. Whatever [buildChunk] returns is a whole chunk or nothing: a
    returned slice comes with a nil error, for a whitelisted type of four
    bytes, and is exactly 12 bytes longer than the payload, whatever the
    size of the payload. *)
Theorem buildChunk_length
    (ct : string) (p chunk : list byte) (e : option error) :
  buildChunk ct p = (Some chunk, e) →
  e = None ∧ isValidChunkType ct = true ∧ length (bytes ct) = 4%nat ∧
  length chunk = (12 + length p)%nat.
Proof.
  unfold buildChunk. destruct (isValidChunkType ct) eqn:Hct; cbn [negb];
    [|discriminate].
  cbv zeta. intros Heq. injection Heq as <- <-.
  pose proof (whitelisted_length ct Hct) as Hty.
  split; [reflexivity|]. split; [reflexivity|]. split; [exact Hty|].
  cbn [length]. rewrite !length_app, length_PutUint32, Hty. lia.
Qed.

Lemma buildChunk_length_witness :
  @None error = None ∧ isValidChunkType "IEND" = true ∧
  length (bytes "IEND") = 4%nat ∧
  length (encode_chunk IEND) = (12 + length (@nil byte))%nat.
Proof.
  apply (buildChunk_length "IEND" [] (encode_chunk IEND) None).
  vm_compute. reflexivity.
Defined.
